(** * gabychat: the interactive session loop of internal/gabychat/main.go

    The program keeps a transcript ([history]) of turns, reads one operator
    turn at a time from standard input, sends the whole transcript to the
    model backend and prints the reply.  This file embeds [main] and the
    Go library functions it calls, and proves the properties of the
    session loop. *)

From Stdlib Require Import String Ascii Strings.Byte.
From Stdlib Require Import List ZArith Lia Bool.
Import ListNotations.

Local Open Scope Z_scope.

(** ** Go values *)

(** A Go [string] or [[]byte] is a sequence of bytes. *)
Definition bytes := list byte.

(** A Go [rune] is an int32 code point; every rune built below is
    non-negative and below 2^21. *)
Definition rune := Z.

Definition b2z (b : byte) : Z := Z.of_N (Byte.to_N b).

(** [s[i]] for an index in range. *)
Definition at_ (s : bytes) (i : nat) : Z := b2z (nth i s x00).

(** [s[lo:hi]] *)
Definition slice (s : bytes) (lo hi : nat) : bytes := firstn (hi - lo) (skipn lo s).

(** A string literal of the source. *)
Definition lit (s : string) : bytes := list_byte_of_string s.

Definition bytes_eqb (a b : bytes) : bool :=
  if list_eq_dec Byte.byte_eq_dec a b then true else false.

(** ** unicode/utf8 *)

Module utf8.

Definition RuneError : rune := 0xFFFD.
Definition RuneSelf : Z := 0x80.
Definition UTFMax : nat := 4.

Definition maskx : Z := 0x3F.
Definition mask2 : Z := 0x1F.
Definition mask3 : Z := 0x0F.
Definition mask4 : Z := 0x07.

Definition locb : Z := 0x80.
Definition hicb : Z := 0xBF.

(** Entries of the [first] table: the low three bits are the sequence
    length, the high four bits index [acceptRanges]. *)
Definition xx : Z := 0xF1.
Definition as_ : Z := 0xF0.
Definition s1 : Z := 0x02.
Definition s2 : Z := 0x13.
Definition s3 : Z := 0x03.
Definition s4 : Z := 0x23.
Definition s5 : Z := 0x34.
Definition s6 : Z := 0x04.
Definition s7 : Z := 0x44.

(** [first[b]], the table written by ranges of the first byte. *)
Definition first (b : Z) : Z :=
  if b <? 0x80 then as_
  else if b <? 0xC2 then xx
  else if b <? 0xE0 then s1
  else if b =? 0xE0 then s2
  else if b <? 0xED then s3
  else if b =? 0xED then s4
  else if b <? 0xF0 then s3
  else if b =? 0xF0 then s5
  else if b <? 0xF4 then s6
  else if b =? 0xF4 then s7
  else xx.

(** [acceptRanges[i]] as (lo, hi); unset entries of the array are zero. *)
Definition acceptRanges (i : Z) : Z * Z :=
  if i =? 0 then (locb, hicb)
  else if i =? 1 then (0xA0, hicb)
  else if i =? 2 then (locb, 0x9F)
  else if i =? 3 then (0x90, hicb)
  else if i =? 4 then (locb, 0x8F)
  else (0, 0).

(** [RuneStart(b)]: b is not a continuation byte. *)
Definition RuneStart (b : Z) : bool := negb (Z.land b 0xC0 =? 0x80).

Definition DecodeRuneInString (s : bytes) : rune * nat :=
  let n := length s in
  if (n <? 1)%nat then (RuneError, 0%nat)
  else
    let s0 := at_ s 0 in
    let x := first s0 in
    if as_ <=? x then
      (* mask := rune(x) << 31 >> 31 on int32: all ones when x is odd *)
      let mask := if Z.odd x then (-1) else 0 in
      (Z.lor (Z.land s0 (Z.lnot mask)) (Z.land RuneError mask), 1%nat)
    else
      let sz := Z.to_nat (Z.land x 7) in
      let accept := acceptRanges (Z.shiftr x 4) in
      if (n <? sz)%nat then (RuneError, 1%nat)
      else
        let s1 := at_ s 1 in
        if (s1 <? fst accept) || (snd accept <? s1) then (RuneError, 1%nat)
        else if (sz <=? 2)%nat then
          (Z.lor (Z.shiftl (Z.land s0 mask2) 6) (Z.land s1 maskx), 2%nat)
        else
          let s2 := at_ s 2 in
          if (s2 <? locb) || (hicb <? s2) then (RuneError, 1%nat)
          else if (sz <=? 3)%nat then
            (Z.lor (Z.lor (Z.shiftl (Z.land s0 mask3) 12)
                          (Z.shiftl (Z.land s1 maskx) 6))
                   (Z.land s2 maskx), 3%nat)
          else
            let s3 := at_ s 3 in
            if (s3 <? locb) || (hicb <? s3) then (RuneError, 1%nat)
            else
              (Z.lor (Z.lor (Z.lor (Z.shiftl (Z.land s0 mask4) 18)
                                   (Z.shiftl (Z.land s1 maskx) 12))
                            (Z.shiftl (Z.land s2 maskx) 6))
                     (Z.land s3 maskx), 4%nat).

(** The loop [for start--; start >= lim; start-- { if RuneStart(s[start]) { break } }]
    of DecodeLastRuneInString; [k] counts the bytes still to inspect.
    The result is the final [start], which is [lim - 1] (as an integer)
    when no start byte was found. *)
Fixpoint findStart (s : bytes) (lim : Z) (k : nat) (start : Z) : Z :=
  match k with
  | O => start
  | S k' =>
      if start <? lim then start
      else if RuneStart (at_ s (Z.to_nat start)) then start
      else findStart s lim k' (start - 1)
  end.

Definition DecodeLastRuneInString (s : bytes) : rune * nat :=
  let end_ := Z.of_nat (length s) in
  if end_ =? 0 then (RuneError, 0%nat)
  else
    let start := end_ - 1 in
    let r := at_ s (Z.to_nat start) in
    if r <? RuneSelf then (r, 1%nat)
    else
      let lim := end_ - Z.of_nat UTFMax in
      let lim := if lim <? 0 then 0 else lim in
      let start := findStart s lim UTFMax (start - 1) in
      let start := if start <? 0 then 0 else start in
      let '(r, size) := DecodeRuneInString (slice s (Z.to_nat start) (Z.to_nat end_)) in
      if negb (start + Z.of_nat size =? end_) then (RuneError, 1%nat)
      else (r, size).

End utf8.

(** ** unicode *)

Module unicode.

Definition MaxLatin1 : Z := 0xFF.

(** The 16-bit ranges of the White_Space table (lo, hi), stride 1. *)
Definition White_Space : list (Z * Z) :=
  [ (0x0009, 0x000d); (0x0020, 0x0020); (0x0085, 0x0085); (0x00a0, 0x00a0);
    (0x1680, 0x1680); (0x2000, 0x200a); (0x2028, 0x2029); (0x202f, 0x202f);
    (0x205f, 0x205f); (0x3000, 0x3000) ].

(** The table has four Latin-1 ranges ([LatinOffset]). *)
Definition LatinOffset : nat := 4.

Definition isExcludingLatin (tab : list (Z * Z)) (r : rune) : bool :=
  existsb (fun '(lo, hi) => (lo <=? r) && (r <=? hi)) (skipn LatinOffset tab).

Definition IsSpace (r : rune) : bool :=
  if (0 <=? r) && (r <=? MaxLatin1) then
    (r =? 0x09) || (r =? 0x0A) || (r =? 0x0B) || (r =? 0x0C) || (r =? 0x0D)
    || (r =? 0x20) || (r =? 0x85) || (r =? 0xA0)
  else isExcludingLatin White_Space r.

End unicode.

(** ** strings *)

Module strings.

(** [asciiSpace[c] == 1] *)
Definition asciiSpace (c : Z) : bool :=
  (c =? 0x09) || (c =? 0x0A) || (c =? 0x0B) || (c =? 0x0C) || (c =? 0x0D) || (c =? 0x20).

(** [for i, r := range s { if f(r) == truth { return i } }; return -1].
    A range loop decodes one rune at a time as DecodeRuneInString does;
    [fuel] bounds the number of runes by the number of bytes. *)
Fixpoint indexFunc_loop (fuel : nat) (s : bytes) (f : rune -> bool) (truth : bool)
    (i : nat) : Z :=
  match fuel with
  | O => -1
  | S fuel' =>
      if (length s <=? i)%nat then -1
      else
        let '(r, size) := utf8.DecodeRuneInString (skipn i s) in
        if Bool.eqb (f r) truth then Z.of_nat i
        else indexFunc_loop fuel' s f truth (i + size)
  end.

Definition indexFunc (s : bytes) (f : rune -> bool) (truth : bool) : Z :=
  indexFunc_loop (length s) s f truth 0.

(** [for i := len(s); i > 0; { r, size := DecodeLastRuneInString(s[0:i]); i -= size; ... }] *)
Fixpoint lastIndexFunc_loop (fuel : nat) (s : bytes) (f : rune -> bool) (truth : bool)
    (i : nat) : Z :=
  match fuel with
  | O => -1
  | S fuel' =>
      if (i <=? 0)%nat then -1
      else
        let '(r, size) := utf8.DecodeLastRuneInString (slice s 0 i) in
        let i := (i - size)%nat in
        if Bool.eqb (f r) truth then Z.of_nat i
        else lastIndexFunc_loop fuel' s f truth i
  end.

Definition lastIndexFunc (s : bytes) (f : rune -> bool) (truth : bool) : Z :=
  lastIndexFunc_loop (length s) s f truth (length s).

Definition TrimLeftFunc (s : bytes) (f : rune -> bool) : bytes :=
  let i := indexFunc s f false in
  if i =? -1 then []
  else skipn (Z.to_nat i) s.

Definition TrimRightFunc (s : bytes) (f : rune -> bool) : bytes :=
  let i := lastIndexFunc s f false in
  let i :=
    if (0 <=? i) && (utf8.RuneSelf <=? at_ s (Z.to_nat i)) then
      let '(_, wid) := utf8.DecodeRuneInString (skipn (Z.to_nat i) s) in
      i + Z.of_nat wid
    else i + 1 in
  slice s 0 (Z.to_nat i).

Definition TrimFunc (s : bytes) (f : rune -> bool) : bytes :=
  TrimRightFunc (TrimLeftFunc s f) f.

(** Second loop of TrimSpace: [for ; stop > start; stop--], looking at
    [s[stop-1]]. *)
Fixpoint TrimSpace_stop (s : bytes) (start stop : nat) : bytes :=
  match stop with
  | O => slice s start stop
  | S stop' =>
      if (stop <=? start)%nat then slice s start stop
      else
        let c := at_ s stop' in
        if utf8.RuneSelf <=? c then TrimRightFunc (slice s start stop) unicode.IsSpace
        else if negb (asciiSpace c) then slice s start stop
        else TrimSpace_stop s start stop'
  end.

(** First loop of TrimSpace: [for ; start < len(s); start++], looking at
    [s[start]]; [k] is [len(s) - start]. *)
Fixpoint TrimSpace_start (s : bytes) (k : nat) (start : nat) : bytes :=
  match k with
  | O => TrimSpace_stop s start (length s)
  | S k' =>
      let c := at_ s start in
      if utf8.RuneSelf <=? c then TrimFunc (skipn start s) unicode.IsSpace
      else if negb (asciiSpace c) then TrimSpace_stop s start (length s)
      else TrimSpace_start s k' (S start)
  end.

Definition TrimSpace (s : bytes) : bytes := TrimSpace_start s (length s) 0.

(** [for len(s) > 0 && s[len(s)-1] == c { s = s[:len(s)-1] }], on the
    reversed string. *)
Fixpoint trimRightByte_rev (r : bytes) (c : byte) : bytes :=
  match r with
  | [] => []
  | b :: r' => if Byte.eqb b c then trimRightByte_rev r' c else r
  end.

Definition trimRightByte (s : bytes) (c : byte) : bytes :=
  rev (trimRightByte_rev (rev s) c).

(** [TrimRight(s, cutset)] for a cutset made of the single ASCII byte [c],
    the form the program uses:
    an empty [s] is returned as it is, and
    [if len(cutset) == 1 && cutset[0] < utf8.RuneSelf { return trimRightByte(s, cutset[0]) }] *)
Definition TrimRight (s : bytes) (c : byte) : bytes :=
  match s with
  | [] => s
  | _ => trimRightByte s c
  end.

End strings.

(** ** The program's constants *)

Definition nl : bytes := [x0a].
Definition tab : bytes := [x09].
Definition dq : bytes := [x22].

(** The lines of the raw string literal [prompt] (source lines 23 to 176). *)
Definition prompt_lines : list bytes :=
  [ lit "You are a robot who is helping with an open-source project issue tracker.";
    lit "When a contributor asks you commands, they appear here prefixed with <request>.";
    lit "You can respond directly to the contributor";
    lit "by starting a response with <response>.";
    [];
    lit "Before responding to the contributor, you can invoke Go code or write new";
    lit "Go functions by prefixing that code with <go run> and ending it with </go run>, like this:";
    [];
    lit "<go run>";
    lit "fmt.Println(strings.Repeat(" ++ dq ++ lit "hi " ++ dq ++ lit ", 3))";
    lit "</go run>";
    [];
    lit "The next message will be the result of running the code, prefixed by <go output> and";
    lit "ending in </go output>, like this:";
    [];
    lit "<go output>";
    lit "hi hi hi";
    lit "</go output>";
    [];
    lit "If the <go run> code does not compile or has a type error or fails when run,";
    lit "the next message will instead be a <go error> message explaining the problem. For example:";
    [];
    lit "<go run>";
    lit "fmt.Println(strings.Repeat(" ++ dq ++ lit "hi " ++ dq ++ lit ", 3)";
    lit "</go run>";
    [];
    lit "is missing a final closing parenthesis and would respond:";
    [];
    lit "<go error>";
    lit "code.go:1:38: syntax error: unexpected newline in argument list; possibly missing comma or )";
    lit "</go error>";
    [];
    lit "If you get a go error, you can try to fix it in another <go run>.";
    lit "After three attempts, stop and let the contributor know that you";
    lit "cannot help them with that request.";
    [];
    lit "When running Go code, the following types and functions are automatically defined";
    lit "in another file in the package and do not need to be repeated in the code you write.";
    [];
    lit "The contributor may send a followup request based on your response.";
    lit "Continue the conversation, invoking Go code as needed.";
    [];
    lit "First there is a type Issue that represents a single issue in the issue tracker:";
    [];
    tab ++ lit "// An Issue represents a GitHub issue on the issue tracker.";
    tab ++ lit "type Issue struct {";
    tab ++ tab ++ lit "Title string // issue title";
    tab ++ tab ++ lit "Body string // issue body text";
    tab ++ tab ++ lit "Author string // GitHub login of author who filed issue";
    tab ++ lit "}";
    [];
    lit "The Issue type also has the following methods:";
    [];
    tab ++ lit "// AddLabel adds the label with the given labelName to the issue.";
    tab ++ lit "func (issue *Issue) AddLabel(labelName string)";
    [];
    tab ++ lit "// RemoveLabel removes the label with the given labelName from the issue.";
    tab ++ lit "func (issue *Issue) AddLabel(labelName string)";
    [];
    tab ++ lit "// SetTitle sets the issue title to newIssueTitle.";
    tab ++ lit "func (issue *Issue) SetTitle(newIssueTitle string)";
    [];
    tab ++ lit "// IsNearlyIdentical reports whether the issue is nearly identical to";
    tab ++ lit "// the issue with the given number.";
    tab ++ lit "func (issue *Issue) IsNearlyIdentical(number int) bool";
    [];
    tab ++ lit "// CloseAsDuplicate closes the issue as a duplicate of";
    tab ++ lit "// the issue with the given number.";
    tab ++ lit "func (issue *Issue) CloseAsDuplicate(number int) bool";
    [];
    lit "As part of interacting with Go contributors working in the issue tracker,";
    lit "you can define new Go functions that run on every issue to perform";
    lit "triage operations. Each function should take a single argument " ++ dq ++ lit "issue *Issue" ++ dq;
    lit "and then look at the issue and apply any required changes.";
    lit "Register the function by calling:";
    [];
    tab ++ lit "func RegisterIssueTriage(name string, f func(" ++ lit "*Issue), desc string)";
    [];
    lit "Remove a function by calling:";
    [];
    tab ++ lit "func DeleteIssueTriage(name string)";
    [];
    lit "There is also a function ListIssueTriage that returns a JSON array of";
    lit "the registered issue triager functions. Each array element has two keys Name and Desc.";
    [];
    tab ++ lit "func ListIssueTriage() string";
    [];
    lit "For JSON outputs like that, it is best to present them to the user as Markdown tables.";
    [];
    lit "For example, here is a conversation involving defining a new function definition:";
    [];
    lit "<request>";
    lit "Please add a gopls label to all issues with a title that starts with x/tools.";
    lit "</request>";
    [];
    lit "<go run>";
    lit "func addGoplsLabel(issue *Issue) {";
    tab ++ lit "if strings.HasPrefix(issue.Title, " ++ dq ++ lit "x/tools" ++ dq ++ lit ") {";
    tab ++ tab ++ lit "issue.AddLabel(" ++ dq ++ lit "gopls" ++ dq ++ lit ")";
    tab ++ lit "}";
    lit "}";
    [];
    lit "func main() {";
    tab ++ lit "RegisterIssueTriage(" ++ dq ++ lit "addGoplsLabel" ++ dq ++ lit ", addGoplsLabel, " ++ dq ++ lit "add a gopls label to all issues with a title that starts with x/tools" ++ dq ++ lit ")";
    lit "}";
    lit "</go run>";
    [];
    lit "<go output>";
    lit "added addGoplsLabel";
    lit "</go output>";
    [];
    lit "<response>";
    lit "I've added a new triage function addGoplsLabel, defined as:";
    [];
    tab ++ lit "func addGoplsLabel(issue *Issue) {";
    tab ++ tab ++ lit "if strings.HasPrefix(issue.Title, " ++ dq ++ lit "x/tools" ++ dq ++ lit ") {";
    tab ++ tab ++ tab ++ lit "issue.AddLabel(" ++ dq ++ lit "gopls" ++ dq ++ lit ")";
    tab ++ tab ++ lit "}";
    tab ++ lit "}";
    lit "</response>";
    [];
    lit "<request>";
    lit "I was wrong, we should only add that label when the prefix is x/tools/gopls. Can you fix that?";
    lit "</request>";
    [];
    lit "<go run>";
    lit "func addGoplsLabel(issue *Issue) {";
    tab ++ lit "if strings.HasPrefix(issue.Title, " ++ dq ++ lit "x/tools/gopls" ++ dq ++ lit ") {";
    tab ++ tab ++ lit "issue.AddLabel(" ++ dq ++ lit "gopls" ++ dq ++ lit ")";
    tab ++ lit "}";
    lit "}";
    [];
    lit "func main() {";
    tab ++ lit "RegisterIssueTriage(" ++ dq ++ lit "addGoplsLabel" ++ dq ++ lit ", addGoplsLabel, " ++ dq ++ lit "add a gopls label to all issues with a title that starts with x/tools/gopls" ++ dq ++ lit ")";
    lit "}";
    lit "</go run>";
    [];
    lit "<go output>";
    lit "redefined addGoplsLabel";
    lit "</go output>";
    [];
    lit "<response>";
    lit "Successfully replaced addGoplsLabel.";
    lit "</response>";
    [];
    lit "<request>";
    lit "Can you please also label issues written in Pig Latin with the " ++ dq ++ lit "pig-latin" ++ dq ++ lit " label?";
    lit "</request>";
    [];
    lit "<response>";
    lit "I'm sorry, but that's not something I can do during issue triage.";
    lit "</response>";
    [];
    lit "Now it's time for a real interaction with an actual contributor." ].

(** [const prompt]: the literal opens with a line break, and every line
    ends with one. *)
Definition prompt : bytes := nl ++ concat (map (fun l => l ++ nl) prompt_lines).

Definition acknowledgment : bytes := lit "Understood. Ready to go.".

(** ** The session loop *)

(** A Go [error], by its message [err.Error()]; [None] is [nil]. *)
Definition error := bytes.

(** Who wrote a transcript entry.  The program stores bare strings; the
    author is ghost state, recorded where the entry is appended. *)
Inductive author := Priming | Operator | Backend.

Definition author_eqb (a b : author) : bool :=
  match a, b with
  | Priming, Priming | Operator, Operator | Backend, Backend => true
  | _, _ => false
  end.

Record state := mkState {
  history : list bytes;          (* the variable [history] *)
  authors : list author;         (* ghost: author of each entry of [history] *)
  Stdout : bytes;                (* bytes written to os.Stdout *)
  Stderr : bytes;                (* bytes written to os.Stderr *)
  chats : list (list bytes);     (* ghost: argument of every ai.Chat call so far *)
}.

(** How one pass through the loop body ends. *)
Inductive control := Continue | Break | OsExit (code : Z).

(** What the process is doing once the given reads are used up. *)
Inductive status := Reading | Exited (code : Z).

Definition write_stdout (st : state) (b : bytes) : state :=
  mkState (history st) (authors st) (Stdout st ++ b) (Stderr st) (chats st).

Definition write_stderr (st : state) (b : bytes) : state :=
  mkState (history st) (authors st) (Stdout st) (Stderr st ++ b) (chats st).

(** [history = append(history, s)] *)
Definition append_history (st : state) (a : author) (s : bytes) : state :=
  mkState (history st ++ [s]) (authors st ++ [a]) (Stdout st) (Stderr st) (chats st).

Definition record_chat (st : state) : state :=
  mkState (history st) (authors st) (Stdout st) (Stderr st) (chats st ++ [history st]).

(** The line log's standard logger writes for a message: the header,
    the message, and a line break unless the message ends with one. *)
(** The cue [<user> ] written before each read. *)
Definition cue : bytes := lit "<user> ".

Definition log_line (header msg : bytes) : bytes :=
  header ++ msg ++
  match rev msg with
  | b :: _ => if Byte.eqb b x0a then [] else nl
  | [] => nl
  end.

Section Session.

(** fmt's [%q] on a byte slice: the bytes as a double-quoted Go string
    literal (strconv.Quote). *)
Variable Quote : bytes -> bytes.

(** [ai.Chat(ctx, history)] of the gemini client: the reply and the
    error.  The package is not part of this file; a call is taken to
    depend on the transcript it is given and to write nothing to the
    standard streams. *)
Variable Chat : list bytes -> bytes * option error.

(** The header of the standard logger (flags LstdFlags: date and time of
    day, each followed by a space) at the moment log.Fatal is called. *)
Variable now : bytes.

(** [log.Fatal(err)]: print to os.Stderr, then os.Exit(1). *)
Definition log_Fatal (st : state) (err : error) : state * control :=
  (write_stderr st (log_line now err), OsExit 1).

(** The body of the [for] loop, given the result of io.ReadAll(os.Stdin). *)
Definition iteration (st : state) (rd : bytes * option error) : state * control :=
  let st := write_stderr st cue in
  let '(data, err) := rd in
  match err with
  | Some e => log_Fatal st e
  | None =>
      if (length data =? 0)%nat then (st, Break)
      else
        let s := strings.TrimSpace data in
        if bytes_eqb s [] then (write_stderr st (Quote data ++ nl), Continue)
        else
          let st := append_history st Operator s in
          let '(next, err) := Chat (history st) in
          let st := record_chat st in
          match err with
          | Some e => log_Fatal st e
          | None =>
              let st :=
                write_stdout st
                  (nl ++ lit "<model> " ++ strings.TrimRight next x0a ++ nl ++ nl) in
              (append_history st Backend next, Continue)
          end
  end.

(** The [for] loop over the successive results of io.ReadAll.  With no
    result left the process has written its cue and waits in ReadAll. *)
Fixpoint loop (reads : list (bytes * option error)) (st : state) : state * status :=
  match reads with
  | [] => (write_stderr st cue, Reading)
  | rd :: rest =>
      match iteration st rd with
      | (st', Continue) => loop rest st'
      | (st', Break) => (st', Exited 0)
      | (st', OsExit code) => (st', Exited code)
      end
  end.

(** [history := []string{prompt, "Understood. Ready to go."}] *)
Definition initial : state :=
  mkState [prompt; acknowledgment] [Priming; Priming] [] [] [].

(** Nothing written, no transcript yet: the state before [history] is
    declared. *)
Definition startup : state := mkState [] [] [] [] [].

(** [main], given the error of gemini.NewClient and the reads.  Parsing
    the (empty) flag set and building the logger and the secret store
    come first and are not modelled.  On an error the process ends in
    log.Fatal; the statements after it are written out as they stand in
    the source, the transcript being set up and the loop entered. *)
Definition main (newClientErr : option error) (reads : list (bytes * option error))
    : state * status :=
  match newClientErr with
  | Some e =>
      match log_Fatal startup e with
      | (st, OsExit code) => (st, Exited code)
      | (st, _) =>
          loop reads
            (mkState [prompt; acknowledgment] [Priming; Priming]
                     (Stdout st) (Stderr st) (chats st))
      end
  | None => loop reads initial
  end.

(** The five ways through the body. *)
Inductive body_case (st : state) (rd : bytes * option error) : state * control -> Prop :=
| case_read_error data e :
    rd = (data, Some e) ->
    body_case st rd (log_Fatal (write_stderr st cue) e)
| case_eof :
    rd = ([], None) ->
    body_case st rd (write_stderr st cue, Break)
| case_blank data :
    rd = (data, None) -> data <> [] -> strings.TrimSpace data = [] ->
    body_case st rd (write_stderr (write_stderr st cue) (Quote data ++ nl), Continue)
| case_chat_error data next e :
    rd = (data, None) -> data <> [] -> strings.TrimSpace data <> [] ->
    Chat (history st ++ [strings.TrimSpace data]) = (next, Some e) ->
    body_case st rd
      (log_Fatal
         (record_chat (append_history (write_stderr st cue) Operator (strings.TrimSpace data)))
         e)
| case_chat_ok data next :
    rd = (data, None) -> data <> [] -> strings.TrimSpace data <> [] ->
    Chat (history st ++ [strings.TrimSpace data]) = (next, None) ->
    body_case st rd
      (append_history
         (write_stdout
            (record_chat
               (append_history (write_stderr st cue) Operator (strings.TrimSpace data)))
            (nl ++ lit "<model> " ++ strings.TrimRight next x0a ++ nl ++ nl))
         Backend next, Continue).

End Session.

(** ** Notions used by the properties *)

(** The author of the turn that follows a turn of [a]. *)
Definition other (a : author) : author :=
  match a with
  | Operator => Backend
  | Backend => Operator
  | Priming => Priming
  end.

(** The authors in [l] take turns, starting with [expect]. *)
Fixpoint alternating (expect : author) (l : list author) : bool :=
  match l with
  | [] => true
  | a :: l' => author_eqb a expect && alternating (other expect) l'
  end.

(** The transcript with the author of each entry. *)
Definition entries (st : state) : list (author * bytes) :=
  combine (authors st) (history st).

(** The first and the last rune of a string are white space. *)
Definition leading_space (s : bytes) : bool :=
  unicode.IsSpace (fst (utf8.DecodeRuneInString s)).

Definition trailing_space (s : bytes) : bool :=
  unicode.IsSpace (fst (utf8.DecodeLastRuneInString s)).

(** [sub] starts at the head of [s] (strings.HasPrefix). *)
Fixpoint HasPrefix (s sub : bytes) : bool :=
  match sub, s with
  | [], _ => true
  | p :: sub', c :: s' => Byte.eqb c p && HasPrefix s' sub'
  | _ :: _, [] => false
  end.

(** The number of positions of [s] at which [sub] starts. *)
Fixpoint occurrences (s sub : bytes) : nat :=
  match s with
  | [] => if HasPrefix [] sub then 1 else 0
  | _ :: s' => ((if HasPrefix s sub then 1 else 0) + occurrences s' sub)%nat
  end.

Definition Contains (s sub : bytes) : bool := (0 <? occurrences s sub)%nat.

(** ** The decoder by cases

    [decode] is DecodeRuneInString told by the shape of its argument;
    the proofs below go through it. *)

(** [c] is a continuation byte. *)
Definition cont (c : Z) : bool := (0x80 <=? c) && (c <=? 0xBF).

(** Bounds a second byte must meet after the first byte [c0]. *)
Definition accept_lo (c0 : Z) : Z :=
  if c0 =? 0xE0 then 0xA0 else if c0 =? 0xF0 then 0x90 else 0x80.

Definition accept_hi (c0 : Z) : Z :=
  if c0 =? 0xED then 0x9F else if c0 =? 0xF4 then 0x8F else 0xBF.

Definition accepted (c0 c1 : Z) : bool := (accept_lo c0 <=? c1) && (c1 <=? accept_hi c0).

(** The code points of sequences of two, three and four bytes. *)
Definition rune2 (c0 c1 : Z) : rune :=
  Z.lor (Z.shiftl (Z.land c0 utf8.mask2) 6) (Z.land c1 utf8.maskx).

Definition rune3 (c0 c1 c2 : Z) : rune :=
  Z.lor (Z.lor (Z.shiftl (Z.land c0 utf8.mask3) 12) (Z.shiftl (Z.land c1 utf8.maskx) 6))
        (Z.land c2 utf8.maskx).

Definition rune4 (c0 c1 c2 c3 : Z) : rune :=
  Z.lor (Z.lor (Z.lor (Z.shiftl (Z.land c0 utf8.mask4) 18)
                      (Z.shiftl (Z.land c1 utf8.maskx) 12))
               (Z.shiftl (Z.land c2 utf8.maskx) 6))
        (Z.land c3 utf8.maskx).

(** The decoder by the shape of its argument. *)
Definition decode (s : bytes) : rune * nat :=
  match s with
  | [] => (utf8.RuneError, 0%nat)
  | b0 :: t =>
      let c0 := b2z b0 in
      if c0 <? 0x80 then (c0, 1%nat)
      else if (c0 <? 0xC2) || (0xF4 <? c0) then (utf8.RuneError, 1%nat)
      else if c0 <? 0xE0 then
        match t with
        | b1 :: _ =>
            if accepted c0 (b2z b1) then (rune2 c0 (b2z b1), 2%nat)
            else (utf8.RuneError, 1%nat)
        | _ => (utf8.RuneError, 1%nat)
        end
      else if c0 <? 0xF0 then
        match t with
        | b1 :: b2 :: _ =>
            if accepted c0 (b2z b1) && cont (b2z b2)
            then (rune3 c0 (b2z b1) (b2z b2), 3%nat) else (utf8.RuneError, 1%nat)
        | _ => (utf8.RuneError, 1%nat)
        end
      else
        match t with
        | b1 :: b2 :: b3 :: _ =>
            if accepted c0 (b2z b1) && cont (b2z b2) && cont (b2z b3)
            then (rune4 c0 (b2z b1) (b2z b2) (b2z b3), 4%nat)
            else (utf8.RuneError, 1%nat)
        | _ => (utf8.RuneError, 1%nat)
        end
  end.

(** The byte at [i], when there is one, does not continue a sequence. *)
Definition boundary (s : bytes) (i : nat) : Prop :=
  match skipn i s with
  | [] => True
  | b :: _ => cont (b2z b) = false
  end.

(** A string with no white space at either end, or no string at all. *)
Definition trimmed (s : bytes) : Prop :=
  s = [] \/ (leading_space s = false /\ trailing_space s = false).

(** ** Invariants of the loop *)

(** Every entry the backend wrote is the reply of the call made on the
    transcript before it. *)
Definition replies_stored (Chat : list bytes -> bytes * option error) (st : state) : Prop :=
  length (authors st) = length (history st) /\
  forall i, nth_error (authors st) i = Some Backend ->
            exists next, Chat (firstn i (history st)) = (next, None) /\
                         nth_error (history st) i = Some next.

(** While the loop runs the turns after the priming pair come in pairs. *)
Definition paired (st : state) : Prop :=
  exists turns,
    authors st = Priming :: Priming :: turns /\
    alternating Operator turns = true /\
    Nat.even (length turns) = true /\
    length (authors st) = length (history st).

(** When it has stopped they still take turns. *)
Definition in_turns (st : state) : Prop :=
  exists turns,
    authors st = Priming :: Priming :: turns /\
    alternating Operator turns = true /\
    length (authors st) = length (history st).

(** All that a state holds except the diagnostic stream. *)
Definition same_but_stderr (a b : state) : Prop :=
  history a = history b /\ authors a = authors b /\ Stdout a = Stdout b /\ chats a = chats b.

(** Determinism with nothing fixed but the reads and the backend: the
    two runs may take place at different times. *)
Definition same_streams_at_any_time : Prop :=
  forall Quote Chat now1 now2 reads,
    let r1 := loop Quote Chat now1 reads initial in
    let r2 := loop Quote Chat now2 reads initial in
    history (fst r1) = history (fst r2) /\
    Stdout (fst r1) = Stdout (fst r2) /\
    Stderr (fst r1) = Stderr (fst r2).

(** [e] is what TrimSpace made of one of the reads, and is not empty. *)
Definition trimmed_read (reads : list (bytes * option error)) (e : bytes) : Prop :=
  exists data,
    In (data, None) reads /\ data <> [] /\ strings.TrimSpace data <> [] /\
    e = strings.TrimSpace data.

(** Every pass that calls the backend appends one operator turn and
    then one backend turn. *)
Definition every_call_appends_a_pair : Prop :=
  forall Quote Chat now st rd,
    let st' := fst (iteration Quote Chat now st rd) in
    chats st' <> chats st ->
    exists s next,
      history st' = history st ++ [s; next] /\
      authors st' = authors st ++ [Operator; Backend].

(** ** An environment to run the loop in *)

Module Sample.

(** [lowerhex[n]] *)
Definition lowerhex (n : N) : byte := nth (N.to_nat n) (lit "0123456789abcdef") x00.

(** Quoting of ASCII text as strconv.Quote does it: the escapes of the
    control characters that have one, a backslash before a quote or a
    backslash, [\x] and two hexadecimal digits for the other control
    bytes and for 0x7f, printable bytes as they are.  Bytes from 0x80 on
    are copied, which is what Quote does for the printable runes only;
    the runs below quote ASCII. *)
Definition escape (b : byte) : bytes :=
  match b with
  | x07 => lit "\a" | x08 => lit "\b" | x09 => lit "\t" | x0a => lit "\n"
  | x0b => lit "\v" | x0c => lit "\f" | x0d => lit "\r"
  | x22 => x5c :: dq | x5c => [x5c; x5c]
  | _ =>
      if ((Byte.to_N b <? 0x20) || (Byte.to_N b =? 0x7f))%N
      then lit "\x" ++ [lowerhex (Byte.to_N b / 16); lowerhex (Byte.to_N b mod 16)]
      else [b]
  end.

Definition Quote (s : bytes) : bytes := dq ++ concat (map escape s) ++ dq.

(** A backend that answers every transcript with the same two lines. *)
Definition reply : bytes := lit "<response>" ++ nl ++ lit "Done." ++ nl ++ nl.

Definition Chat (h : list bytes) : bytes * option error := (reply, None).

(** A backend whose calls fail. *)
Definition unavailable : error := lit "gemini: service unavailable".

Definition ChatDown (h : list bytes) : bytes * option error := ([], Some unavailable).

Definition now : bytes := lit "2024/06/01 10:00:00 ".
Definition later : bytes := lit "2024/06/01 10:00:07 ".

Definition hello : bytes * option error := (lit "hello" ++ nl, None).
Definition blank : bytes * option error := (nl ++ nl, None).
Definition eof : bytes * option error := ([], None).

End Sample.

(** ** Notions used by the further properties *)

(** What the loop prints for the reply [next]. *)
Definition frame (next : bytes) : bytes :=
  nl ++ lit "<model> " ++ strings.TrimRight next x0a ++ nl ++ nl.

(** The turns of the backend in the transcript, oldest first. *)
Definition backend_turns (st : state) : list bytes :=
  map snd (filter (fun e => author_eqb (fst e) Backend) (entries st)).

(** A read the loop rejects as blank: read without error, not empty,
    and empty once trimmed. *)
Definition blank_read (rd : bytes * option error) : bool :=
  match rd with
  | (data, None) => negb (length data =? 0)%nat && bytes_eqb (strings.TrimSpace data) []
  | (_, Some _) => false
  end.

(** The reads that are not blank. *)
Definition without_blanks (reads : list (bytes * option error)) :=
  filter (fun rd => negb (blank_read rd)) reads.

(** The same read with the white space around its text already taken
    away; a read that trims to nothing is left as it is. *)
Definition pretrim (rd : bytes * option error) : bytes * option error :=
  if bytes_eqb (strings.TrimSpace (fst rd)) [] then rd
  else (strings.TrimSpace (fst rd), snd rd).

(** A backend that answers with the last turn it is given. *)
Definition echo_backend (h : list bytes) : bytes * option error := (last h [], None).

(** A backend that answers with line breaks only. *)
Definition silent_backend (h : list bytes) : bytes * option error := (repeat x0a 3, None).

(** Call number [i] was made on the first [2 i + 3] entries of the
    transcript. *)
Definition calls_replayed (st : state) : Prop :=
  forall i c, nth_error (chats st) i = Some c -> c = firstn (2 * i + 3) (history st).

(** * Properties *)

(** ** Runs of the program *)

(** The operator sends [hello] and closes the input. *)
Example run_hello :
  main Sample.Quote Sample.Chat Sample.now None [(lit "hello", None); Sample.eof]
  = (mkState [prompt; acknowledgment; lit "hello"; Sample.reply]
             [Priming; Priming; Operator; Backend]
             (nl ++ lit "<model> <response>" ++ nl ++ lit "Done." ++ nl ++ nl)
             (cue ++ cue)
             [[prompt; acknowledgment; lit "hello"]],
     Exited 0).
Proof. vm_compute. reflexivity. Qed.

(** A blank turn, then [hi], then the end of the input: one backend
    call, after two cues. *)
Example run_blank_then_hi :
  main Sample.Quote Sample.Chat Sample.now None [Sample.blank; (lit "hi", None); Sample.eof]
  = (mkState [prompt; acknowledgment; lit "hi"; Sample.reply]
             [Priming; Priming; Operator; Backend]
             (nl ++ lit "<model> <response>" ++ nl ++ lit "Done." ++ nl ++ nl)
             (cue ++ dq ++ lit "\n\n" ++ dq ++ nl ++ cue ++ cue)
             [[prompt; acknowledgment; lit "hi"]],
     Exited 0).
Proof. vm_compute. reflexivity. Qed.

(** The backend fails on the first turn. *)
Example run_backend_down :
  main Sample.Quote Sample.ChatDown Sample.now None [Sample.hello; Sample.hello]
  = (mkState [prompt; acknowledgment; lit "hello"]
             [Priming; Priming; Operator]
             []
             (cue ++ lit "2024/06/01 10:00:00 gemini: service unavailable" ++ nl)
             [[prompt; acknowledgment; lit "hello"]],
     Exited 1).
Proof. vm_compute. reflexivity. Qed.

(** The client cannot be built. *)
Example run_no_client :
  main Sample.Quote Sample.Chat Sample.now (Some (lit "no key")) [Sample.hello]
  = (mkState [] [] [] (lit "2024/06/01 10:00:00 no key" ++ nl) [], Exited 1).
Proof. vm_compute. reflexivity. Qed.

(** TrimSpace on ASCII, on white space outside ASCII (U+00A0, U+3000,
    U+2000) and on bytes that are not UTF-8. *)
Example TrimSpace_ascii :
  strings.TrimSpace (lit "  hello world " ++ tab ++ nl) = lit "hello world".
Proof. vm_compute. reflexivity. Qed.

Example TrimSpace_unicode :
  strings.TrimSpace ([xc2; xa0] ++ lit " h" ++ [xc3; xa9] ++ [xe3; x80; x80] ++ nl)
  = lit "h" ++ [xc3; xa9].
Proof. vm_compute. reflexivity. Qed.

Example TrimSpace_cut_sequence :
  strings.TrimSpace [xe2; x80; x80; xe2; x80] = [xe2; x80].
Proof. vm_compute. reflexivity. Qed.

Example TrimSpace_blank : strings.TrimSpace (lit "   " ++ nl) = [].
Proof. vm_compute. reflexivity. Qed.

(** ** White space at the ends of a string *)

Section Runes.

Import utf8 unicode strings.

Lemma b2z_range b : 0 <= b2z b < 256.
Proof.
  unfold b2z. pose proof (Byte.to_N_bounded b) as H.
  split; [lia|]. apply N2Z.inj_le in H. simpl in H. lia.
Qed.

Lemma first_cases c :
  0 <= c < 256 ->
  (c < 0x80 /\ first c = as_) \/
  ((0x80 <= c < 0xC2 \/ 0xF4 < c) /\ first c = xx) \/
  (0xC2 <= c < 0xE0 /\ first c = s1) \/
  (c = 0xE0 /\ first c = s2) \/
  ((0xE1 <= c < 0xED \/ 0xEE <= c < 0xF0) /\ first c = s3) \/
  (c = 0xED /\ first c = s4) \/
  (c = 0xF0 /\ first c = s5) \/
  (0xF1 <= c < 0xF4 /\ first c = s6) \/
  (c = 0xF4 /\ first c = s7).
Proof.
  intros H. unfold first.
  repeat match goal with
         | |- context [?a <? ?b] => destruct (Z.ltb_spec a b)
         | |- context [?a =? ?b] => destruct (Z.eqb_spec a b)
         end; lia.
Qed.

(** Settle by arithmetic the tests whose outcome the context fixes. *)
Ltac settle_tests :=
  repeat match goal with
         | |- context [?a <? ?b] =>
             first [ rewrite (proj2 (Z.ltb_lt a b)) by lia
                   | rewrite (proj2 (Z.ltb_ge a b)) by lia ]
         | |- context [?a <=? ?b] =>
             first [ rewrite (proj2 (Z.leb_le a b)) by lia
                   | rewrite (proj2 (Z.leb_gt a b)) by lia ]
         | |- context [?a =? ?b] =>
             first [ rewrite (proj2 (Z.eqb_eq a b)) by lia
                   | rewrite (proj2 (Z.eqb_neq a b)) by lia ]
         end.

(** Turn boolean tests in the context into arithmetic and conclude. *)
Ltac tests_lia :=
  repeat match goal with
         | H : (_ || _) = true |- _ => apply orb_true_iff in H
         | H : (_ || _) = false |- _ => apply orb_false_iff in H; destruct H
         | H : (_ && _) = true |- _ => apply andb_true_iff in H; destruct H
         | H : (_ && _) = false |- _ => apply andb_false_iff in H
         | H : (_ <? _) = true |- _ => apply Z.ltb_lt in H
         | H : (_ <? _) = false |- _ => apply Z.ltb_ge in H
         | H : (_ <=? _) = true |- _ => apply Z.leb_le in H
         | H : (_ <=? _) = false |- _ => apply Z.leb_gt in H
         | H : _ \/ _ |- _ => destruct H
         end; lia.

Ltac split_if :=
  repeat match goal with
         | |- context [if ?t then _ else _] =>
             lazymatch t with
             | context [if _ then _ else _] => fail
             | _ => destruct t eqn:?
             end
         end.

Lemma DecodeRuneInString_decode s : DecodeRuneInString s = decode s.
Proof.
  destruct s as [|b0 t]; [reflexivity|].
  unfold DecodeRuneInString, decode.
  change (at_ (b0 :: t) 0) with (b2z b0).
  pose proof (b2z_range b0) as R0.
  set (c0 := b2z b0) in *.
  change ((length (b0 :: t) <? 1)%nat) with false. cbv iota.
  destruct (first_cases c0 R0) as [[H F]|[[H F]|[[H F]|[[H F]|[[H F]|[[H F]|[[H F]|[[H F]|[H F]]]]]]]]];
    rewrite F; cbv zeta.
  1: { change (as_ <=? as_) with true. cbv iota. change (Z.odd as_) with false. cbv iota.
       change (Z.lnot 0) with (-1). rewrite Z.land_m1_r, Z.land_0_r, Z.lor_0_r.
       destruct (Z.ltb_spec c0 128); [reflexivity | lia]. }
  1: { change (as_ <=? xx) with true. cbv iota. change (Z.odd xx) with true. cbv iota.
       change (Z.lnot (-1)) with 0. rewrite Z.land_0_r.
       change (Z.lor 0 (Z.land RuneError (-1))) with RuneError.
       destruct (Z.ltb_spec c0 128); [lia|].
       destruct (Z.ltb_spec c0 194), (Z.ltb_spec 244 c0); simpl; try reflexivity; lia. }
  all: match goal with
       | |- context [as_ <=? ?x] =>
           change (as_ <=? x) with false; cbv iota;
           let n := eval vm_compute in (Z.to_nat (Z.land x 7)) in
           change (Z.to_nat (Z.land x 7)) with n;
           let a := eval vm_compute in (acceptRanges (Z.shiftr x 4)) in
           change (acceptRanges (Z.shiftr x 4)) with a
       end;
       cbn [fst snd Nat.leb];
       unfold accepted, accept_lo, accept_hi, cont, locb, hicb;
       destruct t as [|b1 [|b2 [|b3 t3]]];
       cbn [length Nat.ltb Nat.leb]; unfold at_; cbn [nth];
       settle_tests; cbn [orb andb]; cbv iota;
       unfold rune2, rune3, rune4;
       split_if; try reflexivity; exfalso; tests_lia.
Qed.

Lemma decode_ascii b0 t : b2z b0 < 0x80 -> decode (b0 :: t) = (b2z b0, 1%nat).
Proof. intros H. unfold decode. settle_tests. reflexivity. Qed.

Lemma decode_cont b0 t : cont (b2z b0) = true -> decode (b0 :: t) = (RuneError, 1%nat).
Proof.
  intros H. unfold cont in H. unfold decode.
  apply andb_true_iff in H. destruct H as [H1 H2]. apply Z.leb_le in H1, H2.
  settle_tests. reflexivity.
Qed.

Lemma accepted_cont c0 c1 : accepted c0 c1 = true -> cont c1 = true.
Proof.
  unfold accepted, accept_lo, accept_hi, cont. intros H.
  apply andb_true_iff in H. destruct H as [H1 H2].
  apply andb_true_iff. split; apply Z.leb_le.
  - apply Z.leb_le in H1. revert H1. split_if; lia.
  - apply Z.leb_le in H2. revert H2. split_if; lia.
Qed.

Lemma decode_lone b0 t :
  0x80 <= b2z b0 ->
  match t with [] => True | b1 :: _ => cont (b2z b1) = false end ->
  decode (b0 :: t) = (RuneError, 1%nat).
Proof.
  intros H Ht. unfold decode. settle_tests.
  destruct t as [|b1 t1].
  - split_if; reflexivity.
  - assert (A : accepted (b2z b0) (b2z b1) = false).
    { destruct (accepted (b2z b0) (b2z b1)) eqn:E; [|reflexivity].
      apply accepted_cont in E. congruence. }
    rewrite A. cbn [andb]. split_if; try reflexivity; destruct t1 as [|? [|? ?]]; reflexivity.
Qed.

Lemma decode_size s r n :
  s <> [] -> decode s = (r, n) -> (1 <= n <= length s)%nat /\ (n <= 4)%nat.
Proof.
  intros Hs H. destruct s as [|b0 [|b1 [|b2 [|b3 t3]]]]; [contradiction| | | |];
    unfold decode in H; revert H; split_if; intros H; inversion H; subst; simpl; lia.
Qed.

Lemma decode_firstn s k :
  (1 <= k)%nat ->
  decode (firstn k s) = decode s \/ decode (firstn k s) = (RuneError, 1%nat).
Proof.
  intros Hk.
  destruct k as [|[|[|[|k]]]]; [lia| | | |];
    destruct s as [|b0 [|b1 [|b2 [|b3 t3]]]]; cbn [firstn]; unfold decode;
    split_if; auto.
Qed.

Lemma decode_extend u r n :
  (2 <= n)%nat -> decode (firstn n u) = (r, n) -> decode u = (r, n).
Proof.
  intros Hn.
  destruct n as [|[|[|[|[|n]]]]]; try lia;
    destruct u as [|b0 [|b1 [|b2 [|b3 t3]]]]; cbn [firstn]; unfold decode;
    split_if; intros H; inversion H; subst; try reflexivity; try lia.
Qed.

Lemma findStart_le s lim k : forall start, findStart s lim k start <= start.
Proof.
  induction k as [|k IH]; intros start; simpl; [lia|].
  destruct (start <? lim); [lia|].
  destruct (RuneStart _); [lia|].
  specialize (IH (start - 1)). lia.
Qed.

Lemma slice_to_end (p : bytes) a : slice p a (length p) = skipn a p.
Proof.
  unfold slice. apply firstn_all2. rewrite length_skipn. lia.
Qed.

Lemma slice_from_0 (s : bytes) i : slice s 0 i = firstn i s.
Proof. unfold slice. rewrite Nat.sub_0_r. reflexivity. Qed.

Lemma DecodeLast_cases p r n :
  p <> [] ->
  DecodeLastRuneInString p = (r, n) ->
  (n = 1%nat /\ r < RuneSelf /\ r = at_ p (length p - 1)) \/
  (n = 1%nat /\ r = RuneError /\ RuneSelf <= at_ p (length p - 1)) \/
  ((1 <= n <= length p)%nat /\ RuneSelf <= at_ p (length p - 1) /\
   decode (skipn (length p - n) p) = (r, n)).
Proof.
  intros Hp. unfold DecodeLastRuneInString.
  assert (L : (1 <= length p)%nat) by (destruct p; [contradiction | simpl; lia]).
  destruct (Z.eqb_spec (Z.of_nat (length p)) 0) as [E|_]; [lia|].
  replace (Z.to_nat (Z.of_nat (length p) - 1)) with (length p - 1)%nat by lia.
  destruct (Z.ltb_spec (at_ p (length p - 1)) RuneSelf) as [A|A].
  - intros H. inversion H; subst. left. auto.
  - set (lim := if Z.of_nat (length p) - Z.of_nat UTFMax <? 0 then 0
                else Z.of_nat (length p) - Z.of_nat UTFMax).
    pose proof (findStart_le p lim UTFMax (Z.of_nat (length p) - 1 - 1)) as F.
    set (z0 := findStart p lim UTFMax (Z.of_nat (length p) - 1 - 1)) in *.
    set (z := if z0 <? 0 then 0 else z0).
    assert (Z : 0 <= z <= Z.of_nat (length p) - 1).
    { subst z. destruct (Z.ltb_spec z0 0); lia. }
    rewrite Nat2Z.id, slice_to_end, DecodeRuneInString_decode.
    destruct (decode (skipn (Z.to_nat z) p)) as [r' size] eqn:D.
    destruct (Z.eqb_spec (z + Z.of_nat size) (Z.of_nat (length p))) as [E|E]; simpl;
      intros H; inversion H; subst.
    + right. right. replace (length p - n)%nat with (Z.to_nat z) by lia.
      repeat split; auto; lia.
    + right. left. auto.
Qed.

Lemma IsSpace_RuneError : IsSpace RuneError = false.
Proof. reflexivity. Qed.

Lemma IsSpace_ascii c : 0 <= c < 0x80 -> IsSpace c = asciiSpace c.
Proof.
  intros H. unfold IsSpace, asciiSpace, MaxLatin1.
  settle_tests. cbn [andb orb]. rewrite !orb_false_r. reflexivity.
Qed.

Lemma skipn_nth (s : bytes) k :
  (k < length s)%nat -> skipn k s = nth k s x00 :: skipn (S k) s.
Proof.
  revert k. induction s as [|b s IH]; intros k H; simpl in H; [lia|].
  destruct k as [|k]; [reflexivity|].
  rewrite !skipn_cons. simpl nth. apply IH. lia.
Qed.

Lemma boundary_end (s : bytes) : boundary s (length s).
Proof. unfold boundary. rewrite skipn_all. exact I. Qed.

(** What the last rune of a prefix tells about decoding forwards from
    the place where it starts. *)
Lemma DecodeLast_forward s k r n :
  (1 <= k <= length s)%nat ->
  boundary s k ->
  DecodeLastRuneInString (firstn k s) = (r, n) ->
  (1 <= n <= k)%nat /\
  (RuneSelf <= at_ s (k - n) -> snd (DecodeRuneInString (skipn (k - n) s)) = n) /\
  (at_ s (k - n) < RuneSelf -> n = 1%nat) /\
  (IsSpace r = true -> boundary s (k - n)).
Proof.
  intros Hk Hb H.
  assert (Lp : length (firstn k s) = k) by (rewrite length_firstn; lia).
  assert (Hp : firstn k s <> []) by (intros E; rewrite E in Lp; simpl in Lp; lia).
  assert (Hat : forall i, (i < k)%nat -> at_ (firstn k s) i = at_ s i).
  { intros i Hi. unfold at_. rewrite nth_firstn.
    destruct (Nat.ltb_spec i k); [reflexivity | lia]. }
  assert (Hsk : forall i, (i < k)%nat ->
                 skipn i s = nth i s x00 :: skipn (S i) s) by (intros; apply skipn_nth; lia).
  rewrite DecodeRuneInString_decode.
  destruct (DecodeLast_cases _ _ _ Hp H) as [(-> & Hr & Er)|[(-> & Er & Hr)|(Hn & Hr & D)]];
    rewrite Lp in *; rewrite ?Hat in * by lia.
  - (* an ASCII byte *)
    split; [lia|]. split; [|split].
    + subst r. intros. unfold RuneSelf in *. lia.
    + reflexivity.
    + intros _. unfold boundary. rewrite Hsk by lia.
      change (b2z (nth (k - 1) s x00)) with (at_ s (k - 1)).
      unfold cont. unfold RuneSelf in *. subst r. settle_tests. reflexivity.
  - (* a byte that decodes to nothing *)
    split; [lia|]. split; [|split].
    + intros _. rewrite Hsk by lia. rewrite decode_lone; [reflexivity | exact Hr |].
      replace (S (k - 1)) with k by lia. exact Hb.
    + reflexivity.
    + subst r. rewrite IsSpace_RuneError. discriminate.
  - (* a whole sequence *)
    rewrite skipn_firstn_comm in D. replace (k - (k - n))%nat with n in D by lia.
    assert (Hu := Hsk (k - n)%nat ltac:(lia)).
    change (b2z (nth (k - n) s x00)) with (at_ s (k - n)) in *.
    split; [lia|]. split; [|split].
    + intros A. destruct (Nat.le_gt_cases 2 n) as [N|N].
      * rewrite (decode_extend _ _ _ N D). reflexivity.
      * assert (n = 1%nat) by lia. subst n.
        rewrite Hu. rewrite decode_lone; [reflexivity | exact A |].
        replace (S (k - 1)) with k by lia. exact Hb.
    + intros A. rewrite Hu in D.
      destruct n as [|n]; [lia|]. cbn [firstn] in D.
      rewrite decode_ascii in D by exact A. inversion D. reflexivity.
    + intros Sp. unfold boundary. rewrite Hu.
      destruct (cont (b2z (nth (k - n) s x00))) eqn:C; [|reflexivity].
      rewrite Hu in D. destruct n as [|n]; [lia|]. cbn [firstn] in D.
      rewrite decode_cont in D by exact C. inversion D; subst.
      rewrite IsSpace_RuneError in Sp. discriminate.
Qed.

(** The backward scan stops at the last rune that is not white space. *)
Lemma lastIndexFunc_loop_spec s fuel :
  forall i,
    (i <= length s)%nat ->
    boundary s i ->
    let j := lastIndexFunc_loop fuel s IsSpace false i in
    j = -1 \/
    exists r n,
      0 <= j /\ (1 <= n)%nat /\ (Z.to_nat j + n <= i)%nat /\
      DecodeLastRuneInString (firstn (Z.to_nat j + n) s) = (r, n) /\
      IsSpace r = false /\
      boundary s (Z.to_nat j + n).
Proof.
  induction fuel as [|fuel IH]; intros i Hi Hb; cbn [lastIndexFunc_loop]; [now left|].
  destruct (Nat.leb_spec i 0) as [Z|Z]; [now left|].
  rewrite slice_from_0.
  destruct (DecodeLastRuneInString (firstn i s)) as [r n] eqn:D.
  destruct (DecodeLast_forward s i r n ltac:(lia) Hb D) as (Hn & _ & _ & Hsp).
  destruct (IsSpace r) eqn:Sp; cbn [Bool.eqb].
  - destruct (IH (i - n)%nat ltac:(lia) (Hsp eq_refl)) as [E|(r' & n' & H0 & H1 & H2 & H3 & H4 & H5)].
    + now left.
    + right. exists r', n'. repeat split; auto; lia.
  - right. exists r, n. rewrite Nat2Z.id.
    replace (i - n + n)%nat with i by lia. repeat split; auto; lia.
Qed.

(** TrimRightFunc returns nothing or a prefix whose last rune is not
    white space. *)
Lemma TrimRightFunc_spec s :
  TrimRightFunc s IsSpace = [] \/
  exists k r n,
    (1 <= k <= length s)%nat /\
    TrimRightFunc s IsSpace = firstn k s /\
    DecodeLastRuneInString (firstn k s) = (r, n) /\
    IsSpace r = false.
Proof.
  unfold TrimRightFunc, lastIndexFunc.
  destruct (lastIndexFunc_loop_spec s (length s) (length s) (le_n _) (boundary_end s))
    as [E|(r & n & H0 & H1 & H2 & D & Sp & Hb)].
  - rewrite E. left. reflexivity.
  - set (j := lastIndexFunc_loop (length s) s IsSpace false (length s)) in *.
    right. exists (Z.to_nat j + n)%nat, r, n.
    destruct (DecodeLast_forward s (Z.to_nat j + n) r n ltac:(lia) Hb D) as (_ & Hw & Ha & _).
    replace (Z.to_nat j + n - n)%nat with (Z.to_nat j) in * by lia.
    repeat split; auto; try lia.
    destruct (Z.leb_spec 0 j); [|lia]. cbn [andb].
    destruct (Z.leb_spec RuneSelf (at_ s (Z.to_nat j))) as [A|A].
    + specialize (Hw A).
      destruct (DecodeRuneInString (skipn (Z.to_nat j) s)) as [r' wid]. simpl in Hw. subst wid.
      rewrite slice_from_0. f_equal. lia.
    + rewrite (Ha A). rewrite slice_from_0. f_equal. lia.
Qed.

(** The forward scan stops at the first rune for which [f] is false. *)
Lemma indexFunc_loop_spec s f fuel :
  forall i,
    let j := indexFunc_loop fuel s f false i in
    j = -1 \/
    ((i <= Z.to_nat j < length s)%nat /\ 0 <= j /\
     f (fst (DecodeRuneInString (skipn (Z.to_nat j) s))) = false).
Proof.
  induction fuel as [|fuel IH]; intros i; cbn [indexFunc_loop]; [now left|].
  destruct (Nat.leb_spec (length s) i) as [L|L]; [now left|].
  destruct (DecodeRuneInString (skipn i s)) as [r size] eqn:D.
  destruct (f r) eqn:F; cbn [Bool.eqb].
  - destruct (IH (i + size)%nat) as [E|(H1 & H2 & H3)]; [now left|].
    right. repeat split; auto; lia.
  - right. rewrite Nat2Z.id, D. repeat split; auto; lia.
Qed.

Lemma TrimLeftFunc_spec s f :
  TrimLeftFunc s f = [] \/
  (exists j, (j < length s)%nat /\ TrimLeftFunc s f = skipn j s) /\
  f (fst (DecodeRuneInString (TrimLeftFunc s f))) = false.
Proof.
  unfold TrimLeftFunc, indexFunc.
  destruct (indexFunc_loop_spec s f (length s) 0%nat) as [E|(H1 & H2 & H3)].
  - rewrite E. now left.
  - set (j := indexFunc_loop (length s) s f false 0) in *.
    destruct (Z.eqb_spec j (-1)); [lia|].
    right. split; [|exact H3]. exists (Z.to_nat j). split; [lia | reflexivity].
Qed.

Lemma leading_firstn s k :
  (1 <= k)%nat -> leading_space s = false -> leading_space (firstn k s) = false.
Proof.
  unfold leading_space. rewrite !DecodeRuneInString_decode. intros Hk H.
  destruct (decode_firstn s k Hk) as [E|E]; rewrite E; [exact H | reflexivity].
Qed.

Lemma TrimRightFunc_trimmed s :
  leading_space s = false -> trimmed (TrimRightFunc s IsSpace).
Proof.
  intros H. destruct (TrimRightFunc_spec s) as [E|(k & r & n & Hk & E & D & Sp)].
  - now left.
  - right. rewrite E. split.
    + apply leading_firstn; [lia | exact H].
    + unfold trailing_space. rewrite D. exact Sp.
Qed.

Lemma TrimFunc_trimmed s : trimmed (TrimFunc s IsSpace).
Proof.
  unfold TrimFunc.
  destruct (TrimLeftFunc_spec s IsSpace) as [E|[_ H]].
  - rewrite E. now left.
  - apply TrimRightFunc_trimmed. exact H.
Qed.

Lemma DecodeLast_ascii p :
  p <> [] -> at_ p (length p - 1) < RuneSelf ->
  DecodeLastRuneInString p = (at_ p (length p - 1), 1%nat).
Proof.
  intros Hp A. unfold DecodeLastRuneInString.
  assert (L : (1 <= length p)%nat) by (destruct p; [contradiction | simpl; lia]).
  destruct (Z.eqb_spec (Z.of_nat (length p)) 0) as [E|_]; [lia|].
  replace (Z.to_nat (Z.of_nat (length p) - 1)) with (length p - 1)%nat by lia.
  destruct (Z.ltb_spec (at_ p (length p - 1)) RuneSelf); [reflexivity | lia].
Qed.

Lemma slice_head (s : bytes) start stop :
  (start < stop <= length s)%nat ->
  slice s start stop = nth start s x00 :: firstn (stop - start - 1) (skipn (S start) s).
Proof.
  intros H. unfold slice. rewrite skipn_nth by lia.
  destruct (stop - start)%nat as [|m] eqn:E; [lia|].
  replace (S m - 1)%nat with m by lia. reflexivity.
Qed.

Lemma slice_length (s : bytes) start stop :
  (start <= stop <= length s)%nat -> length (slice s start stop) = (stop - start)%nat.
Proof. intros H. unfold slice. rewrite length_firstn, length_skipn. lia. Qed.

Lemma slice_at (s : bytes) start stop i :
  (start + i < stop)%nat -> at_ (slice s start stop) i = at_ s (start + i).
Proof.
  intros H. unfold at_, slice. rewrite nth_firstn, nth_skipn.
  destruct (Nat.ltb_spec i (stop - start)); [reflexivity | lia].
Qed.

Lemma slice_leading (s : bytes) start stop :
  (start < stop <= length s)%nat ->
  at_ s start < RuneSelf -> asciiSpace (at_ s start) = false ->
  leading_space (slice s start stop) = false.
Proof.
  intros H A Sp. unfold leading_space.
  rewrite DecodeRuneInString_decode, slice_head by exact H.
  rewrite decode_ascii by exact A. cbn [fst].
  rewrite IsSpace_ascii; [exact Sp|].
  pose proof (b2z_range (nth start s x00)). unfold at_, RuneSelf in A. lia.
Qed.

Lemma TrimSpace_stop_trimmed s start :
  (start < length s)%nat ->
  at_ s start < RuneSelf -> asciiSpace (at_ s start) = false ->
  forall stop, (stop <= length s)%nat -> trimmed (TrimSpace_stop s start stop).
Proof.
  intros Hs A Sp. induction stop as [|stop IH]; intros Hl; cbn [TrimSpace_stop].
  - left. unfold slice. reflexivity.
  - destruct (Nat.leb_spec (S stop) start) as [L|L].
    + left. unfold slice. replace (S stop - start)%nat with 0%nat by lia. reflexivity.
    + assert (Lead : leading_space (slice s start (S stop)) = false)
        by (apply slice_leading; auto; lia).
      destruct (Z.leb_spec RuneSelf (at_ s stop)) as [C|C].
      * apply TrimRightFunc_trimmed. exact Lead.
      * destruct (asciiSpace (at_ s stop)) eqn:Sp'; cbn [negb].
        -- apply IH. lia.
        -- right. split; [exact Lead|].
           unfold trailing_space.
           assert (Ln : length (slice s start (S stop)) = (S stop - start)%nat)
             by (apply slice_length; lia).
           assert (At : at_ (slice s start (S stop)) (length (slice s start (S stop)) - 1)
                        = at_ s stop).
           { rewrite Ln, slice_at by lia. f_equal. lia. }
           rewrite DecodeLast_ascii.
           ++ cbn [fst]. rewrite At. rewrite IsSpace_ascii; [exact Sp'|].
              pose proof (b2z_range (nth stop s x00)). unfold at_, RuneSelf in *. lia.
           ++ intros E. rewrite E in Ln. cbn [length] in Ln. lia.
           ++ rewrite At. exact C.
Qed.

Lemma TrimSpace_stop_empty s start stop :
  (stop <= start)%nat -> TrimSpace_stop s start stop = [].
Proof.
  intros H. destruct stop as [|stop]; cbn [TrimSpace_stop].
  - reflexivity.
  - destruct (Nat.leb_spec (S stop) start); [|lia].
    unfold slice. replace (S stop - start)%nat with 0%nat by lia. reflexivity.
Qed.

Lemma TrimSpace_start_trimmed s :
  forall k start, (start + k = length s)%nat -> trimmed (TrimSpace_start s k start).
Proof.
  induction k as [|k IH]; intros start H; cbn [TrimSpace_start].
  - left. apply TrimSpace_stop_empty. lia.
  - destruct (Z.leb_spec RuneSelf (at_ s start)) as [C|C].
    + apply TrimFunc_trimmed.
    + destruct (asciiSpace (at_ s start)) eqn:Sp; cbn [negb].
      * apply IH. lia.
      * apply TrimSpace_stop_trimmed; auto; lia.
Qed.

(** TrimSpace leaves no white space at either end. *)
Lemma TrimSpace_trimmed s : trimmed (TrimSpace s).
Proof. apply TrimSpace_start_trimmed. reflexivity. Qed.

(** ** A trimmed string is left as it is *)

Lemma TrimRightFunc_fixed s :
  s <> [] -> trailing_space s = false -> TrimRightFunc s IsSpace = s.
Proof.
  intros Hs T. unfold TrimRightFunc, lastIndexFunc.
  assert (L : (1 <= length s)%nat) by (destruct s; [contradiction | simpl; lia]).
  destruct (length s) as [|m] eqn:Lm; [lia|]. cbn [lastIndexFunc_loop].
  destruct (Nat.leb_spec (S m) 0); [lia|].
  rewrite !slice_from_0. rewrite <- Lm, firstn_all.
  unfold trailing_space in T.
  destruct (DecodeLastRuneInString s) as [r n] eqn:D. cbn [fst] in T.
  rewrite T. cbn [Bool.eqb].
  assert (D' : DecodeLastRuneInString (firstn (length s) s) = (r, n))
    by (rewrite firstn_all; exact D).
  destruct (DecodeLast_forward s (length s) r n ltac:(lia) (boundary_end s) D')
    as (Hn & Hw & Ha & _).
  rewrite Nat2Z.id.
  destruct (Z.leb_spec 0 (Z.of_nat (length s - n))); [|lia]. cbn [andb].
  destruct (Z.leb_spec RuneSelf (at_ s (length s - n))) as [A|A].
  - specialize (Hw A).
    destruct (DecodeRuneInString (skipn (length s - n) s)) as [r' wid]. simpl in Hw. subst wid.
    replace (Z.to_nat (Z.of_nat (length s - n) + Z.of_nat n)) with (length s) by lia.
    apply firstn_all.
  - rewrite (Ha A) in *.
    replace (Z.to_nat (Z.of_nat (length s - 1) + 1)) with (length s) by lia.
    apply firstn_all.
Qed.

Lemma TrimLeftFunc_fixed s :
  s <> [] -> leading_space s = false -> TrimLeftFunc s IsSpace = s.
Proof.
  intros Hs T. unfold TrimLeftFunc, indexFunc.
  assert (L : (1 <= length s)%nat) by (destruct s; [contradiction | simpl; lia]).
  destruct (length s) as [|m] eqn:Lm; [lia|]. cbn [indexFunc_loop].
  destruct (Nat.leb_spec (length s) 0); [lia|].
  cbn [skipn]. unfold leading_space in T.
  destruct (DecodeRuneInString s) as [r n] eqn:D. cbn [fst] in T.
  rewrite T. cbn [Bool.eqb]. reflexivity.
Qed.

Lemma TrimSpace_fixed s :
  s <> [] -> leading_space s = false -> trailing_space s = false -> TrimSpace s = s.
Proof.
  intros Hs Hl Ht. unfold TrimSpace.
  assert (L : (1 <= length s)%nat) by (destruct s; [contradiction | simpl; lia]).
  destruct (length s) as [|m] eqn:Lm; [lia|]. cbn [TrimSpace_start].
  destruct (Z.leb_spec RuneSelf (at_ s 0)) as [C|C].
  - cbn [skipn]. unfold TrimFunc.
    rewrite TrimLeftFunc_fixed by assumption. apply TrimRightFunc_fixed; assumption.
  - assert (Sp : asciiSpace (at_ s 0) = false).
    { unfold leading_space in Hl. rewrite DecodeRuneInString_decode in Hl.
      destruct s as [|b0 t]; [contradiction|].
      rewrite decode_ascii in Hl by exact C. cbn [fst] in Hl.
      rewrite IsSpace_ascii in Hl; [exact Hl|].
      pose proof (b2z_range b0). unfold at_, RuneSelf in *. simpl in *. lia. }
    rewrite Sp. cbn [negb]. rewrite Lm. cbn [TrimSpace_stop].
    destruct (Nat.leb_spec (S m) 0); [lia|].
    assert (Sl : slice s 0 (S m) = s) by (rewrite slice_from_0, <- Lm; apply firstn_all).
    rewrite Sl.
    destruct (Z.leb_spec RuneSelf (at_ s m)) as [C'|C'].
    + apply TrimRightFunc_fixed; assumption.
    + assert (Sp' : asciiSpace (at_ s m) = false).
      { assert (Em : (length s - 1)%nat = m) by lia.
        unfold trailing_space in Ht.
        rewrite DecodeLast_ascii in Ht; rewrite ?Em; try assumption.
        cbn [fst] in Ht. rewrite Em in Ht.
        rewrite IsSpace_ascii in Ht; [exact Ht|].
        pose proof (b2z_range (nth m s x00)). unfold at_, RuneSelf in *. lia. }
      rewrite Sp'. reflexivity.
Qed.

End Runes.

(** ** The loop body, case by case *)

Section Body.

Variable Quote : bytes -> bytes.
Variable Chat : list bytes -> bytes * option error.
Variable now : bytes.

Local Abbreviation iteration := (iteration Quote Chat now).
Local Abbreviation loop := (loop Quote Chat now).
Local Abbreviation log_Fatal := (log_Fatal now).
Local Abbreviation body_case := (body_case Quote Chat now).

Lemma bytes_eqb_nil (s : bytes) : bytes_eqb s [] = true <-> s = [].
Proof.
  unfold bytes_eqb. destruct (list_eq_dec Byte.byte_eq_dec s []); split; congruence.
Qed.

Lemma length_eqb_0 (s : bytes) : (length s =? 0)%nat = true <-> s = [].
Proof.
  rewrite Nat.eqb_eq. split; [apply length_zero_iff_nil | intros ->; reflexivity].
Qed.

Lemma iteration_read_error st data e :
  iteration st (data, Some e) = log_Fatal (write_stderr st cue) e.
Proof. reflexivity. Qed.

Lemma iteration_eof st :
  iteration st ([], None) = (write_stderr st cue, Break).
Proof. reflexivity. Qed.

Lemma iteration_blank st data :
  data <> [] -> strings.TrimSpace data = [] ->
  iteration st (data, None) =
  (write_stderr (write_stderr st cue) (Quote data ++ nl), Continue).
Proof.
  intros Hne Hblank. unfold iteration.
  destruct (length data =? 0)%nat eqn:L.
  - apply length_eqb_0 in L. contradiction.
  - rewrite Hblank. reflexivity.
Qed.

Lemma iteration_chat st data :
  data <> [] -> strings.TrimSpace data <> [] ->
  iteration st (data, None) =
  let st1 := append_history (write_stderr st cue) Operator (strings.TrimSpace data) in
  let st2 := record_chat st1 in
  match Chat (history st1) with
  | (_, Some e) => log_Fatal st2 e
  | (next, None) =>
      (append_history
         (write_stdout st2 (nl ++ lit "<model> " ++ strings.TrimRight next x0a ++ nl ++ nl))
         Backend next, Continue)
  end.
Proof.
  intros Hne Hs. unfold iteration.
  destruct (length data =? 0)%nat eqn:L.
  - apply length_eqb_0 in L. contradiction.
  - destruct (bytes_eqb (strings.TrimSpace data) []) eqn:B.
    + apply bytes_eqb_nil in B. contradiction.
    + cbv zeta. destruct (Chat _) as [next [e|]]; reflexivity.
Qed.

Lemma iteration_cases st rd : body_case st rd (iteration st rd).
Proof.
  destruct rd as [data [e|]].
  - rewrite iteration_read_error. eapply case_read_error; reflexivity.
  - destruct data as [|b data'] eqn:D.
    + rewrite iteration_eof. apply case_eof; reflexivity.
    + rewrite <- D. assert (Hne : data <> []) by (rewrite D; discriminate).
      destruct (strings.TrimSpace data) as [|c s'] eqn:T.
      * rewrite iteration_blank by assumption. apply case_blank; auto.
      * assert (Hs : strings.TrimSpace data <> []) by (rewrite T; discriminate).
        rewrite iteration_chat by assumption. cbv zeta.
        change (history (append_history (write_stderr st cue) Operator (strings.TrimSpace data)))
          with (history st ++ [strings.TrimSpace data]).
        destruct (Chat (history st ++ [strings.TrimSpace data])) as [next [e|]] eqn:C.
        -- eapply case_chat_error; eauto.
        -- eapply case_chat_ok; eauto.
Qed.

(** A property kept by every pass that continues holds when the loop
    stops, in whichever way it stops. *)
Lemma loop_invariant (Inv Post : state -> Prop) :
  (forall st, Inv st -> Post (write_stderr st cue)) ->
  (forall st rd st', Inv st -> iteration st rd = (st', Continue) -> Inv st') ->
  (forall st rd st' c, Inv st -> iteration st rd = (st', c) -> c <> Continue -> Post st') ->
  forall reads st, Inv st -> Post (fst (loop reads st)).
Proof.
  intros Hwait Hcont Hstop reads.
  induction reads as [|rd rest IH]; intros st HI; simpl.
  - apply Hwait, HI.
  - destruct (iteration st rd) as [st' c] eqn:E.
    destruct c; simpl.
    + apply IH. eapply Hcont; eauto.
    + eapply Hstop; eauto. discriminate.
    + eapply Hstop; eauto. discriminate.
Qed.

End Body.

(** Split a pass of the loop body into its five cases. *)
Ltac body_cases E :=
  match type of E with
  | iteration ?Q ?C ?n ?st ?rd = _ =>
      let H := fresh "H" in
      pose proof (iteration_cases Q C n st rd) as H;
      rewrite E in H; inversion H; subst; clear H;
      unfold log_Fatal in *;
      repeat match goal with
             | K : (_, _) = (_, _) |- _ => inversion K; subst; clear K
             end
  end.

Lemma loop_cons Quote Chat now rd rest st :
  loop Quote Chat now (rd :: rest) st =
  match iteration Quote Chat now st rd with
  | (st', Continue) => loop Quote Chat now rest st'
  | (st', Break) => (st', Exited 0)
  | (st', OsExit code) => (st', Exited code)
  end.
Proof. reflexivity. Qed.

Lemma loop_nil Quote Chat now st :
  loop Quote Chat now [] st = (write_stderr st cue, Reading).
Proof. reflexivity. Qed.

(** ** The transcript only grows *)

Lemma iteration_history_grows Quote Chat now st rd :
  exists ext, history (fst (iteration Quote Chat now st rd)) = history st ++ ext.
Proof.
  destruct (iteration Quote Chat now st rd) as [st' c] eqn:E.
  body_cases E; simpl.
  - exists []. now rewrite app_nil_r.
  - exists []. now rewrite app_nil_r.
  - exists []. now rewrite app_nil_r.
  - eexists. reflexivity.
  - eexists. rewrite <- app_assoc. reflexivity.
Qed.

Lemma loop_history_grows Quote Chat now reads :
  forall st, exists ext, history (fst (loop Quote Chat now reads st)) = history st ++ ext.
Proof.
  induction reads as [|rd rest IH]; intros st; simpl.
  - exists []. now rewrite app_nil_r.
  - destruct (iteration_history_grows Quote Chat now st rd) as [e1 H1].
    destruct (iteration Quote Chat now st rd) as [st' c]. simpl in H1.
    destruct c; simpl.
    + destruct (IH st') as [e2 H2]. exists (e1 ++ e2).
      rewrite H2, H1. now rewrite app_assoc.
    + eauto.
    + eauto.
Qed.

(** C6. Before any operator input is read the transcript is exactly the
    instruction prompt followed by the acknowledgment, and these stay
    its first two entries whatever is read afterwards. *)
Theorem C6_priming_pair :
  forall Quote Chat now reads,
    history initial = [prompt; acknowledgment] /\
    history (fst (main Quote Chat now None [])) = [prompt; acknowledgment] /\
    firstn 2 (history (fst (main Quote Chat now None reads))) = [prompt; acknowledgment].
Proof.
  intros Quote Chat now reads. repeat split.
  unfold main.
  destruct (loop_history_grows Quote Chat now reads initial) as [ext H].
  rewrite H. reflexivity.
Qed.

(** C3. A read that is not empty but trims to the empty string is
    rejected: the transcript, the backend calls and the primary output
    stay as they were, the diagnostic stream gains the cue and the
    quoted raw bytes with a line break, and the loop goes on with the
    next read, where it writes the cue again. *)
Theorem C3_blank_input_rejected :
  forall Quote Chat now st data rest,
    data <> [] ->
    strings.TrimSpace data = [] ->
    let st' := fst (iteration Quote Chat now st (data, None)) in
    snd (iteration Quote Chat now st (data, None)) = Continue /\
    history st' = history st /\
    authors st' = authors st /\
    chats st' = chats st /\
    Stdout st' = Stdout st /\
    Stderr st' = Stderr st ++ cue ++ Quote data ++ nl /\
    loop Quote Chat now ((data, None) :: rest) st = loop Quote Chat now rest st' /\
    Stderr (fst (loop Quote Chat now [(data, None)] st))
      = Stderr st ++ cue ++ Quote data ++ nl ++ cue /\
    snd (loop Quote Chat now [(data, None)] st) = Reading.
Proof.
  intros Quote Chat now st data rest Hne Hblank st'. subst st'.
  rewrite !loop_cons.
  rewrite (iteration_blank Quote Chat now st data Hne Hblank).
  cbn [fst snd]. rewrite loop_nil. cbn [fst snd write_stderr Stderr Stdout history authors chats].
  repeat split; rewrite <- ?app_assoc; reflexivity.
Qed.

Lemma C3_blank_input_rejected_witness :
  nl ++ nl <> [] /\
  strings.TrimSpace (nl ++ nl) = [] /\
  Stderr (fst (iteration Sample.Quote Sample.Chat Sample.now initial (nl ++ nl, None)))
    = Stderr initial ++ cue ++ Sample.Quote (nl ++ nl) ++ nl.
Proof.
  assert (Hne : nl ++ nl <> []) by discriminate.
  assert (Hblank : strings.TrimSpace (nl ++ nl) = []) by reflexivity.
  split; [exact Hne|]. split; [exact Hblank|].
  apply (C3_blank_input_rejected Sample.Quote Sample.Chat Sample.now initial (nl ++ nl) []
           Hne Hblank).
Defined.

(** ** How the loop ends *)

Lemma loop_exit_zero Quote Chat now reads :
  forall st st',
    loop Quote Chat now reads st = (st', Exited 0) ->
    exists before rest,
      reads = before ++ ([], None) :: rest /\
      loop Quote Chat now before st = (st', Reading).
Proof.
  induction reads as [|rd rest IH]; intros st st' H.
  - rewrite loop_nil in H. discriminate.
  - rewrite loop_cons in H.
    destruct (iteration Quote Chat now st rd) as [st1 c] eqn:E.
    destruct c.
    + destruct (IH _ _ H) as (before & rest' & -> & Hb).
      exists (rd :: before), rest'. split; [reflexivity|].
      rewrite loop_cons, E. exact Hb.
    + inversion H; subst. body_cases E.
      exists [], rest. split; reflexivity.
    + inversion H; subst. body_cases E.
Qed.

(** A run that exits with status 1 was ended by a read that failed or
    by a read whose backend call failed. *)
Lemma loop_exit_one Quote Chat now reads :
  forall st st',
    loop Quote Chat now reads st = (st', Exited 1) ->
    exists before rd rest,
      reads = before ++ rd :: rest /\
      snd (loop Quote Chat now before st) = Reading /\
      ((exists e, snd rd = Some e) \/
       (snd rd = None /\ strings.TrimSpace (fst rd) <> [] /\
        exists e,
          snd (Chat (history (fst (loop Quote Chat now before st))
                     ++ [strings.TrimSpace (fst rd)])) = Some e)).
Proof.
  induction reads as [|rd rest IH]; intros st st' H.
  - rewrite loop_nil in H. discriminate.
  - rewrite loop_cons in H.
    destruct (iteration Quote Chat now st rd) as [st1 c] eqn:E.
    destruct c.
    + destruct (IH _ _ H) as (before & rd' & rest' & -> & Hb & Hc).
      exists (rd :: before), rd', rest'. rewrite !loop_cons, E.
      split; [reflexivity|]. split; assumption.
    + discriminate.
    + exists [], rd, rest. rewrite loop_nil. cbn [fst snd write_stderr history].
      split; [reflexivity|]. split; [reflexivity|].
      body_cases E; cbn [fst snd].
      * left. eauto.
      * right. repeat split; auto.
        match goal with K : Chat _ = _ |- _ => rewrite K end. simpl. eauto.
Qed.

(** C4. A read of zero bytes without error ends the loop with status 0,
    with the transcript and the backend calls as they were before the
    read, and it is the only way the body breaks out of the loop.  A
    read that fails, a backend call that fails and a client that
    cannot be built each end the process with status 1, which is not
    0; a run ends with status 0 only on a read of zero bytes and with
    status 1 only on one of these errors, and with no other status. *)
Theorem C4_end_of_input :
  forall Quote Chat now,
    (forall st rest,
        loop Quote Chat now (([], None) :: rest) st = (write_stderr st cue, Exited 0) /\
        history (write_stderr st cue) = history st /\
        chats (write_stderr st cue) = chats st /\
        fst (loop Quote Chat now [] st) = write_stderr st cue) /\
    (forall st data e rest,
        loop Quote Chat now ((data, Some e) :: rest) st
        = (write_stderr (write_stderr st cue) (log_line now e), Exited 1)) /\
    (forall st data reply e rest,
        data <> [] ->
        strings.TrimSpace data <> [] ->
        Chat (history st ++ [strings.TrimSpace data]) = (reply, Some e) ->
        snd (iteration Quote Chat now st (data, None)) = OsExit 1 /\
        snd (loop Quote Chat now ((data, None) :: rest) st) = Exited 1) /\
    (forall e reads,
        main Quote Chat now (Some e) reads
        = (write_stderr startup (log_line now e), Exited 1)) /\
    1 <> 0 /\
    (forall reads, snd (main Quote Chat now None (reads ++ [([], None)])) = Exited 0 \/
                   snd (main Quote Chat now None (reads ++ [([], None)])) = Exited 1) /\
    (forall st rd st', iteration Quote Chat now st rd = (st', Break) -> rd = ([], None)) /\
    (forall st rd st' code,
        iteration Quote Chat now st rd = (st', OsExit code) ->
        code = 1 /\ code <> 0 /\
        ((exists e, snd rd = Some e) \/
         (exists e, snd (Chat (history st ++ [strings.TrimSpace (fst rd)])) = Some e))) /\
    (forall reads st st' code,
        loop Quote Chat now reads st = (st', Exited code) ->
        (code = 0 /\
         exists before rest,
           reads = before ++ ([], None) :: rest /\
           loop Quote Chat now before st = (st', Reading)) \/
        (code = 1 /\
         exists before rd rest,
           reads = before ++ rd :: rest /\
           snd (loop Quote Chat now before st) = Reading /\
           ((exists e, snd rd = Some e) \/
            (snd rd = None /\ strings.TrimSpace (fst rd) <> [] /\
             exists e,
               snd (Chat (history (fst (loop Quote Chat now before st))
                          ++ [strings.TrimSpace (fst rd)])) = Some e)))) /\
    (forall e reads, snd (main Quote Chat now (Some e) reads) = Exited 1).
Proof.
  intros Quote Chat now.
  split; [|split; [|split; [|split; [|split; [|split; [|split; [|split; [|split]]]]]]]].
  - intros st rest. repeat split.
  - intros st data e rest. rewrite loop_cons, iteration_read_error. reflexivity.
  - intros st data reply e rest Hne Hs HC.
    rewrite loop_cons, (iteration_chat Quote Chat now st data Hne Hs). cbv zeta.
    change (history (append_history (write_stderr st cue) Operator (strings.TrimSpace data)))
      with (history st ++ [strings.TrimSpace data]).
    rewrite HC. split; reflexivity.
  - intros e reads. reflexivity.
  - discriminate.
  - intros reads. unfold main.
    destruct (loop Quote Chat now (reads ++ [([], None)]) initial) as [st' [|code]] eqn:E.
    + exfalso. revert E. generalize initial.
      induction reads as [|rd rest IH]; intros st E.
      * discriminate.
      * simpl app in E. rewrite loop_cons in E.
        destruct (iteration Quote Chat now st rd) as [st1 [| |c]]; try discriminate.
        eapply IH; eauto.
    + revert E. generalize initial.
      induction reads as [|rd rest IH]; intros st E.
      * inversion E. now left.
      * simpl app in E. rewrite loop_cons in E.
        destruct (iteration Quote Chat now st rd) as [st1 [| |c]] eqn:B.
        -- eapply IH; eauto.
        -- inversion E. now left.
        -- inversion E; subst. body_cases B; now right.
  - intros st rd st' E. body_cases E. reflexivity.
  - intros st rd st' code H. split; [|split].
    + body_cases H; reflexivity.
    + body_cases H; discriminate.
    + body_cases H; simpl.
      * left. eauto.
      * right. match goal with K : Chat _ = _ |- _ => rewrite K end. simpl. eauto.
  - intros reads st st' code H.
    assert (C : code = 0 \/ code = 1).
    { revert st H. induction reads as [|rd rest IH]; intros st H.
      - discriminate.
      - rewrite loop_cons in H.
        destruct (iteration Quote Chat now st rd) as [st1 [| |c]] eqn:B.
        + eapply IH; eauto.
        + inversion H. now left.
        + inversion H; subst. body_cases B; now right. }
    destruct C as [-> | ->].
    + left. split; [reflexivity|]. now apply loop_exit_zero.
    + right. split; [reflexivity|]. eapply loop_exit_one; eauto.
  - intros e reads. reflexivity.
Qed.

Lemma C4_end_of_input_witness :
  loop Sample.Quote Sample.ChatDown Sample.now [Sample.blank; Sample.hello; Sample.eof] initial
  = (fst (loop Sample.Quote Sample.ChatDown Sample.now [Sample.blank; Sample.hello] initial),
     Exited 1) /\
  ((1 = 0 /\
    exists before rest,
      [Sample.blank; Sample.hello; Sample.eof] = before ++ ([], None) :: rest /\
      loop Sample.Quote Sample.ChatDown Sample.now before initial
      = (fst (loop Sample.Quote Sample.ChatDown Sample.now [Sample.blank; Sample.hello] initial),
         Reading)) \/
   (1 = 1 /\
    exists before rd rest,
      [Sample.blank; Sample.hello; Sample.eof] = before ++ rd :: rest /\
      snd (loop Sample.Quote Sample.ChatDown Sample.now before initial) = Reading /\
      ((exists e, snd rd = Some e) \/
       (snd rd = None /\ strings.TrimSpace (fst rd) <> [] /\
        exists e,
          snd (Sample.ChatDown
                 (history (fst (loop Sample.Quote Sample.ChatDown Sample.now before initial))
                  ++ [strings.TrimSpace (fst rd)])) = Some e)))).
Proof.
  assert (E : loop Sample.Quote Sample.ChatDown Sample.now
                [Sample.blank; Sample.hello; Sample.eof] initial
              = (fst (loop Sample.Quote Sample.ChatDown Sample.now
                        [Sample.blank; Sample.hello] initial), Exited 1)) by reflexivity.
  split; [exact E|].
  destruct (C4_end_of_input Sample.Quote Sample.ChatDown Sample.now)
    as (_ & _ & _ & _ & _ & _ & _ & _ & H & _).
  exact (H _ _ _ _ E).
Defined.

(** ** A pass that reaches the backend *)

(** C5. When the backend call fails the process exits with status 1,
    nothing is written to the primary output, and the transcript keeps
    the operator's turn of that pass and gains no reply. *)
Theorem C5_backend_failure :
  forall Quote Chat now st data reply e rest,
    data <> [] ->
    strings.TrimSpace data <> [] ->
    Chat (history st ++ [strings.TrimSpace data]) = (reply, Some e) ->
    let st' := fst (iteration Quote Chat now st (data, None)) in
    snd (iteration Quote Chat now st (data, None)) = OsExit 1 /\
    loop Quote Chat now ((data, None) :: rest) st = (st', Exited 1) /\
    1 <> 0 /\
    Stdout st' = Stdout st /\
    history st' = history st ++ [strings.TrimSpace data] /\
    authors st' = authors st ++ [Operator] /\
    chats st' = chats st ++ [history st ++ [strings.TrimSpace data]] /\
    Stderr st' = Stderr st ++ cue ++ log_line now e.
Proof.
  intros Quote Chat now st data reply e rest Hne Hs HC st'. subst st'.
  rewrite loop_cons.
  rewrite (iteration_chat Quote Chat now st data Hne Hs). cbv zeta.
  change (history (append_history (write_stderr st cue) Operator (strings.TrimSpace data)))
    with (history st ++ [strings.TrimSpace data]).
  rewrite HC. unfold log_Fatal. simpl.
  repeat split; try discriminate. now rewrite <- app_assoc.
Qed.

Lemma C5_backend_failure_witness :
  lit "hello" <> [] /\
  strings.TrimSpace (lit "hello") <> [] /\
  Sample.ChatDown (history initial ++ [strings.TrimSpace (lit "hello")])
    = ([], Some Sample.unavailable) /\
  history (fst (iteration Sample.Quote Sample.ChatDown Sample.now initial (lit "hello", None)))
    = history initial ++ [strings.TrimSpace (lit "hello")].
Proof.
  assert (Hne : lit "hello" <> []) by discriminate.
  assert (Hs : strings.TrimSpace (lit "hello") <> []) by discriminate.
  assert (HC : Sample.ChatDown (history initial ++ [strings.TrimSpace (lit "hello")])
               = ([], Some Sample.unavailable)) by reflexivity.
  split; [exact Hne|]. split; [exact Hs|]. split; [exact HC|].
  apply (C5_backend_failure Sample.Quote Sample.ChatDown Sample.now initial (lit "hello")
           [] Sample.unavailable [] Hne Hs HC).
Defined.

Lemma iteration_reply Quote Chat now st data next :
  data <> [] ->
  strings.TrimSpace data <> [] ->
  Chat (history st ++ [strings.TrimSpace data]) = (next, None) ->
  iteration Quote Chat now st (data, None) =
  (mkState (history st ++ [strings.TrimSpace data; next])
           (authors st ++ [Operator; Backend])
           (Stdout st ++ nl ++ lit "<model> " ++ strings.TrimRight next x0a ++ nl ++ nl)
           (Stderr st ++ cue)
           (chats st ++ [history st ++ [strings.TrimSpace data]]),
   Continue).
Proof.
  intros Hne Hs HC.
  rewrite (iteration_chat Quote Chat now st data Hne Hs). cbv zeta.
  change (history (append_history (write_stderr st cue) Operator (strings.TrimSpace data)))
    with (history st ++ [strings.TrimSpace data]).
  rewrite HC. unfold append_history, write_stdout, record_chat, write_stderr. simpl.
  rewrite <- !app_assoc. reflexivity.
Qed.

Lemma replies_stored_operator Chat st st' s :
  history st' = history st ++ [s] ->
  authors st' = authors st ++ [Operator] ->
  replies_stored Chat st -> replies_stored Chat st'.
Proof.
  intros Hh Ha [L H]. unfold replies_stored. rewrite Hh, Ha. split.
  - rewrite !length_app, L. reflexivity.
  - intros i Hi.
    destruct (Nat.lt_ge_cases i (length (authors st))) as [Lt|Ge].
    + rewrite nth_error_app1 in Hi by assumption.
      destruct (H i Hi) as (next & HC & Hn). exists next.
      rewrite firstn_app, nth_error_app1 by lia.
      replace (i - length (history st))%nat with 0%nat by lia.
      simpl. rewrite app_nil_r. auto.
    + rewrite nth_error_app2 in Hi by assumption.
      destruct (i - length (authors st))%nat as [|[|k]]; simpl in Hi; discriminate.
Qed.

Lemma replies_stored_backend Chat st st' next :
  history st' = history st ++ [next] ->
  authors st' = authors st ++ [Backend] ->
  Chat (history st) = (next, None) ->
  replies_stored Chat st -> replies_stored Chat st'.
Proof.
  intros Hh Ha HC [L H]. unfold replies_stored. rewrite Hh, Ha. split.
  - rewrite !length_app, L. reflexivity.
  - intros i Hi.
    destruct (Nat.lt_ge_cases i (length (authors st))) as [Lt|Ge].
    + rewrite nth_error_app1 in Hi by assumption.
      destruct (H i Hi) as (next' & HC' & Hn). exists next'.
      rewrite firstn_app, nth_error_app1 by lia.
      replace (i - length (history st))%nat with 0%nat by lia.
      simpl. rewrite app_nil_r. auto.
    + rewrite nth_error_app2 in Hi by assumption.
      destruct (i - length (authors st))%nat as [|k] eqn:D.
      * assert (i = length (history st)) by lia. subst i. exists next.
        rewrite firstn_app, Nat.sub_diag, firstn_all. simpl. rewrite app_nil_r.
        rewrite nth_error_app2, Nat.sub_diag by lia. auto.
      * destruct k; simpl in Hi; discriminate.
Qed.

Lemma replies_stored_chat_error Chat st s b1 b2 :
  replies_stored Chat st ->
  replies_stored Chat
    (write_stderr (record_chat (append_history (write_stderr st b1) Operator s)) b2).
Proof. apply (replies_stored_operator Chat st _ s); reflexivity. Qed.

Lemma replies_stored_chat_ok Chat st s next b1 b2 :
  Chat (history st ++ [s]) = (next, None) ->
  replies_stored Chat st ->
  replies_stored Chat
    (append_history
       (write_stdout (record_chat (append_history (write_stderr st b1) Operator s)) b2)
       Backend next).
Proof.
  intros HC H.
  apply (replies_stored_backend Chat (append_history st Operator s) _ next);
    [reflexivity | reflexivity | exact HC |].
  revert H. apply (replies_stored_operator Chat st _ s); reflexivity.
Qed.

Lemma loop_replies_stored Quote Chat now reads :
  forall st, replies_stored Chat st ->
             replies_stored Chat (fst (loop Quote Chat now reads st)).
Proof.
  apply (loop_invariant Quote Chat now (replies_stored Chat) (replies_stored Chat)).
  - intros st H. exact H.
  - intros st rd st' H E. body_cases E.
    + exact H.
    + now apply replies_stored_chat_ok.
  - intros st rd st' c H E _. body_cases E.
    + exact H.
    + exact H.
    + exact H.
    + now apply replies_stored_chat_error.
    + now apply replies_stored_chat_ok.
Qed.

(** C2. The reply appended to the transcript is the string the backend
    returned, byte for byte, while the primary output gets the copy
    without its trailing line breaks; in every run, each entry written
    by the backend is the reply of the call made on the entries before
    it. *)
Theorem C2_reply_stored_untrimmed :
  forall Quote Chat now,
    (forall st data next,
        data <> [] ->
        strings.TrimSpace data <> [] ->
        Chat (history st ++ [strings.TrimSpace data]) = (next, None) ->
        let st' := fst (iteration Quote Chat now st (data, None)) in
        history st' = history st ++ [strings.TrimSpace data; next] /\
        last (history st') [] = next /\
        Stdout st' = Stdout st ++ nl ++ lit "<model> " ++ strings.TrimRight next x0a ++ nl ++ nl) /\
    (forall reads i,
        let st := fst (loop Quote Chat now reads initial) in
        nth_error (authors st) i = Some Backend ->
        exists next, Chat (firstn i (history st)) = (next, None) /\
                     nth_error (history st) i = Some next).
Proof.
  intros Quote Chat now. split.
  - intros st data next Hne Hs HC st'. subst st'.
    rewrite (iteration_reply Quote Chat now st data next Hne Hs HC). simpl.
    repeat split.
    change [strings.TrimSpace data; next] with ([strings.TrimSpace data] ++ [next]).
    rewrite app_assoc. apply last_last.
  - intros reads i st.
    assert (H : replies_stored Chat st).
    { apply loop_replies_stored. split; [reflexivity|].
      intros [|[|[|k]]] Hk; simpl in Hk; discriminate. }
    apply H.
Qed.

Lemma C2_reply_stored_untrimmed_witness :
  lit "hello" <> [] /\
  strings.TrimSpace (lit "hello") <> [] /\
  Sample.Chat (history initial ++ [strings.TrimSpace (lit "hello")])
    = (Sample.reply, None) /\
  last (history (fst (iteration Sample.Quote Sample.Chat Sample.now initial
                        (lit "hello", None)))) []
    = Sample.reply.
Proof.
  assert (Hne : lit "hello" <> []) by discriminate.
  assert (Hs : strings.TrimSpace (lit "hello") <> []) by discriminate.
  assert (HC : Sample.Chat (history initial ++ [strings.TrimSpace (lit "hello")])
               = (Sample.reply, None)) by reflexivity.
  split; [exact Hne|]. split; [exact Hs|]. split; [exact HC|].
  apply (proj1 (C2_reply_stored_untrimmed Sample.Quote Sample.Chat Sample.now)
           initial (lit "hello") _ Hne Hs HC).
Defined.

(** ** What is displayed *)

Lemma trimRightByte_rev_spec c :
  forall r, exists k,
    r = repeat c k ++ strings.trimRightByte_rev r c /\
    (forall t, strings.trimRightByte_rev r c <> c :: t).
Proof.
  induction r as [|b r IH]; simpl.
  - exists 0%nat. split; [reflexivity | discriminate].
  - destruct (Byte.eqb b c) eqn:E.
    + apply Byte.byte_dec_bl in E. subst b.
      destruct IH as (k & Hk & Hh). exists (S k). simpl. split; [congruence | exact Hh].
    + exists 0%nat. split; [reflexivity|].
      intros t Ht. inversion Ht; subst.
      assert (Byte.eqb c c = true) by (apply Byte.byte_dec_lb; reflexivity). congruence.
Qed.

Lemma repeat_rev {A} (a : A) k : rev (repeat a k) = repeat a k.
Proof.
  induction k as [|k IH]; simpl; [reflexivity|].
  rewrite IH. symmetry. apply repeat_cons.
Qed.

Lemma TrimRight_trimRightByte (s : bytes) (c : byte) :
  strings.TrimRight s c = strings.trimRightByte s c.
Proof. destruct s; reflexivity. Qed.

(** [TrimRight] takes away the bytes [c] at the end of [s], all of them
    and nothing else. *)
Lemma TrimRight_spec (s : bytes) (c : byte) :
  exists k,
    s = strings.TrimRight s c ++ repeat c k /\
    (forall t, strings.TrimRight s c <> t ++ [c]).
Proof.
  rewrite TrimRight_trimRightByte. unfold strings.trimRightByte.
  destruct (trimRightByte_rev_spec c (rev s)) as (k & Hk & Hh).
  exists k. split.
  - rewrite <- (rev_involutive s) at 1. rewrite Hk at 1.
    rewrite rev_app_distr, repeat_rev. reflexivity.
  - intros t Ht. apply (Hh (rev t)).
    rewrite <- (rev_involutive (strings.trimRightByte_rev (rev s) c)), Ht.
    rewrite rev_app_distr. reflexivity.
Qed.

(** C7. For a reply [next] the primary output gains a line break, the
    label [<model> ], the reply without the line breaks at its end and
    two line breaks: what is cut from the reply is a run of line breaks
    and what is shown does not end in one. *)
Theorem C7_reply_displayed :
  forall Quote Chat now st data next,
    data <> [] ->
    strings.TrimSpace data <> [] ->
    Chat (history st ++ [strings.TrimSpace data]) = (next, None) ->
    exists shown k,
      Stdout (fst (iteration Quote Chat now st (data, None)))
        = Stdout st ++ nl ++ lit "<model> " ++ shown ++ nl ++ nl /\
      next = shown ++ repeat x0a k /\
      (forall t, shown <> t ++ [x0a]).
Proof.
  intros Quote Chat now st data next Hne Hs HC.
  destruct (TrimRight_spec next x0a) as (k & Hk & Hend).
  exists (strings.TrimRight next x0a), k.
  rewrite (iteration_reply Quote Chat now st data next Hne Hs HC). simpl.
  repeat split; assumption.
Qed.

Lemma C7_reply_displayed_witness :
  lit "hello" <> [] /\
  strings.TrimSpace (lit "hello") <> [] /\
  Sample.Chat (history initial ++ [strings.TrimSpace (lit "hello")]) = (Sample.reply, None) /\
  exists shown k,
    Stdout (fst (iteration Sample.Quote Sample.Chat Sample.now initial (lit "hello", None)))
      = Stdout initial ++ nl ++ lit "<model> " ++ shown ++ nl ++ nl /\
    Sample.reply = shown ++ repeat x0a k /\
    (forall t, shown <> t ++ [x0a]).
Proof.
  assert (Hne : lit "hello" <> []) by discriminate.
  assert (Hs : strings.TrimSpace (lit "hello") <> []) by discriminate.
  split; [exact Hne|]. split; [exact Hs|]. split; [reflexivity|].
  apply (C7_reply_displayed Sample.Quote Sample.Chat Sample.now initial (lit "hello")
           Sample.reply Hne Hs eq_refl).
Defined.

(** ** Whose turn it is *)

Lemma alternating_app e l m :
  e <> Priming ->
  alternating e (l ++ m)
  = alternating e l && alternating (if Nat.even (length l) then e else other e) m.
Proof.
  revert e. induction l as [|a l IH]; intros e He.
  - reflexivity.
  - cbn [app alternating length]. rewrite IH by (destruct e; simpl; congruence).
    rewrite <- andb_assoc. f_equal. f_equal.
    rewrite Nat.even_succ, <- Nat.negb_even.
    destruct (Nat.even (length l)), e; simpl; congruence.
Qed.

Lemma alternating_adjacent l :
  forall e, e <> Priming -> alternating e l = true ->
  forall i a b, nth_error l i = Some a -> nth_error l (S i) = Some b -> a <> b.
Proof.
  induction l as [|x l IH]; intros e He H i a b Ha Hb.
  - destruct i; discriminate.
  - cbn [alternating] in H. apply andb_prop in H. destruct H as [Hx Hl].
    destruct i as [|i].
    + simpl in Ha, Hb. inversion Ha; subst x. destruct l as [|y l']; [discriminate|].
      simpl in Hb. inversion Hb; subst y.
      cbn [alternating] in Hl. apply andb_prop in Hl. destruct Hl as [Hy _].
      destruct a, b, e; simpl in *; congruence.
    + simpl in Ha, Hb. apply (IH (other e)) with (i := i); auto.
      destruct e; simpl; congruence.
Qed.

Lemma app_one_neq {A} (l : list A) (x : A) : l ++ [x] <> l.
Proof.
  intros H. apply (f_equal (@length A)) in H. rewrite length_app in H. simpl in H. lia.
Qed.

Lemma paired_in_turns st : paired st -> in_turns st.
Proof. intros (t & A & B & _ & L). exists t. auto. Qed.

Lemma in_turns_operator st st' s :
  history st' = history st ++ [s] ->
  authors st' = authors st ++ [Operator] ->
  paired st -> in_turns st'.
Proof.
  intros Hh Ha (t & A & B & E & L). exists (t ++ [Operator]). repeat split.
  - rewrite Ha, A. reflexivity.
  - rewrite alternating_app by discriminate. rewrite B, E. reflexivity.
  - rewrite Ha, Hh, !length_app, L. reflexivity.
Qed.

Lemma paired_reply st st' s next :
  history st' = history st ++ [s; next] ->
  authors st' = authors st ++ [Operator; Backend] ->
  paired st -> paired st'.
Proof.
  intros Hh Ha (t & A & B & E & L). exists (t ++ [Operator; Backend]). repeat split.
  - rewrite Ha, A. reflexivity.
  - rewrite alternating_app by discriminate. rewrite B, E. reflexivity.
  - rewrite length_app. simpl. rewrite Nat.add_comm. simpl. exact E.
  - rewrite Ha, Hh, !length_app, L. reflexivity.
Qed.

Lemma loop_in_turns Quote Chat now reads :
  forall st, paired st -> in_turns (fst (loop Quote Chat now reads st)).
Proof.
  apply (loop_invariant Quote Chat now paired in_turns).
  - intros st H. apply paired_in_turns in H. exact H.
  - intros st rd st' H E. body_cases E.
    + exact H.
    + revert H. eapply paired_reply; simpl; rewrite <- ?app_assoc; reflexivity.
  - intros st rd st' c H E _. body_cases E.
    + apply paired_in_turns in H. exact H.
    + apply paired_in_turns in H. exact H.
    + apply paired_in_turns in H. exact H.
    + revert H. eapply in_turns_operator; reflexivity.
    + apply paired_in_turns. revert H.
      eapply paired_reply; simpl; rewrite <- ?app_assoc; reflexivity.
Qed.

(** A pass that calls the backend, whatever the call returns: the
    operator's turn is appended, and the reply after it when there is
    one. *)
Lemma iteration_call Quote Chat now st rd :
  chats (fst (iteration Quote Chat now st rd)) <> chats st ->
  snd rd = None /\
  strings.TrimSpace (fst rd) <> [] /\
  match Chat (history st ++ [strings.TrimSpace (fst rd)]) with
  | (next, None) =>
      history (fst (iteration Quote Chat now st rd))
      = history st ++ [strings.TrimSpace (fst rd); next] /\
      authors (fst (iteration Quote Chat now st rd)) = authors st ++ [Operator; Backend] /\
      snd (iteration Quote Chat now st rd) = Continue
  | (_, Some _) =>
      history (fst (iteration Quote Chat now st rd))
      = history st ++ [strings.TrimSpace (fst rd)] /\
      authors (fst (iteration Quote Chat now st rd)) = authors st ++ [Operator] /\
      snd (iteration Quote Chat now st rd) = OsExit 1
  end.
Proof.
  intros H.
  destruct (iteration Quote Chat now st rd) as [st1 c] eqn:E.
  body_cases E; cbn [fst snd] in *; try (exfalso; apply H; reflexivity).
  - repeat split; auto.
    match goal with K : Chat _ = _ |- _ => rewrite K end.
    simpl. repeat split.
  - repeat split; auto.
    match goal with K : Chat _ = _ |- _ => rewrite K end.
    simpl. rewrite <- !app_assoc. repeat split.
Qed.

(** A pass whose backend call fails calls the backend and appends the
    operator's turn only. *)
Lemma C1_counterexample : ~ every_call_appends_a_pair.
Proof.
  intros H.
  destruct (H Sample.Quote Sample.ChatDown Sample.now initial Sample.hello)
    as (s & next & Hh & _).
  - vm_compute. discriminate.
  - apply (f_equal (@length bytes)) in Hh. vm_compute in Hh. discriminate Hh.
Qed.

(** C1. In every run the entries after the priming pair are written in
    turns, operator first, and no two neighbours have the same author.
    A pass that calls the backend appends one operator turn, and after
    it one backend turn when the call succeeds; when the call fails the
    process exits with the operator turn as the last entry.  A pass
    that makes no backend call appends nothing. *)
Theorem C1_turns_alternate :
  forall Quote Chat now,
    (forall reads,
        let st := fst (loop Quote Chat now reads initial) in
        exists turns,
          authors st = Priming :: Priming :: turns /\
          length (authors st) = length (history st) /\
          alternating Operator turns = true /\
          (forall i a b, nth_error turns i = Some a -> nth_error turns (S i) = Some b ->
                         a <> b)) /\
    (forall st rd,
        let st' := fst (iteration Quote Chat now st rd) in
        chats st' <> chats st ->
        snd rd = None /\
        strings.TrimSpace (fst rd) <> [] /\
        match Chat (history st ++ [strings.TrimSpace (fst rd)]) with
        | (next, None) =>
            history st' = history st ++ [strings.TrimSpace (fst rd); next] /\
            authors st' = authors st ++ [Operator; Backend] /\
            snd (iteration Quote Chat now st rd) = Continue
        | (_, Some _) =>
            history st' = history st ++ [strings.TrimSpace (fst rd)] /\
            authors st' = authors st ++ [Operator] /\
            snd (iteration Quote Chat now st rd) = OsExit 1
        end) /\
    (forall st data next,
        data <> [] ->
        strings.TrimSpace data <> [] ->
        Chat (history st ++ [strings.TrimSpace data]) = (next, None) ->
        let st' := fst (iteration Quote Chat now st (data, None)) in
        history st' = history st ++ [strings.TrimSpace data; next] /\
        authors st' = authors st ++ [Operator; Backend]) /\
    (forall st data reply e,
        data <> [] ->
        strings.TrimSpace data <> [] ->
        Chat (history st ++ [strings.TrimSpace data]) = (reply, Some e) ->
        let st' := fst (iteration Quote Chat now st (data, None)) in
        history st' = history st ++ [strings.TrimSpace data] /\
        authors st' = authors st ++ [Operator] /\
        chats st' <> chats st) /\
    (forall st rd,
        let st' := fst (iteration Quote Chat now st rd) in
        chats st' = chats st -> history st' = history st /\ authors st' = authors st).
Proof.
  intros Quote Chat now.
  split; [|split; [|split; [|split]]].
  - intros reads st.
    assert (H : in_turns st).
    { apply loop_in_turns. exists []. repeat split. }
    destruct H as (t & A & B & L). exists t. repeat split; auto.
    apply (alternating_adjacent t Operator); [discriminate | exact B].
  - intros st rd st' H. subst st'. apply iteration_call. exact H.
  - intros st data next Hne Hs HC st'. subst st'.
    rewrite (iteration_reply Quote Chat now st data next); auto.
  - intros st data reply e Hne Hs HC st'. subst st'.
    rewrite (iteration_chat Quote Chat now st data Hne Hs). cbv zeta.
    change (history (append_history (write_stderr st cue) Operator (strings.TrimSpace data)))
      with (history st ++ [strings.TrimSpace data]).
    rewrite HC. unfold log_Fatal. simpl. repeat split. apply app_one_neq.
  - intros st rd st' H. subst st'.
    destruct (iteration Quote Chat now st rd) as [st1 c] eqn:E. simpl in *.
    body_cases E; try (split; reflexivity); simpl in *;
      exfalso; eapply app_one_neq; eassumption.
Qed.

Lemma C1_turns_alternate_witness :
  lit "hello" <> [] /\
  strings.TrimSpace (lit "hello") <> [] /\
  Sample.ChatDown (history initial ++ [strings.TrimSpace (lit "hello")])
    = ([], Some Sample.unavailable) /\
  authors (fst (iteration Sample.Quote Sample.ChatDown Sample.now initial (lit "hello", None)))
    = authors initial ++ [Operator].
Proof.
  assert (Hne : lit "hello" <> []) by discriminate.
  assert (Hs : strings.TrimSpace (lit "hello") <> []) by discriminate.
  split; [exact Hne|]. split; [exact Hs|]. split; [reflexivity|].
  apply (proj1 (proj2 (proj2 (proj2
           (C1_turns_alternate Sample.Quote Sample.ChatDown Sample.now))))
           initial (lit "hello") [] Sample.unavailable Hne Hs eq_refl).
Defined.

(** ** The instruction prompt *)

(** C8. The prompt carries the comment of RemoveLabel, but the method
    declared under it is AddLabel a second time: no declaration of
    RemoveLabel occurs in the text.  SetTitle, IsNearlyIdentical and
    CloseAsDuplicate are declared once each. *)
Theorem C8_prompt_methods :
  Contains prompt (lit "func (issue *Issue) RemoveLabel(labelName string)") = false /\
  Contains prompt (lit "RemoveLabel(") = false /\
  occurrences prompt (lit "func (issue *Issue) AddLabel(labelName string)") = 2%nat /\
  Contains prompt
    (tab ++ lit "// RemoveLabel removes the label with the given labelName from the issue."
         ++ nl ++ tab ++ lit "func (issue *Issue) AddLabel(labelName string)" ++ nl) = true /\
  occurrences prompt (lit "func (issue *Issue) SetTitle(newIssueTitle string)") = 1%nat /\
  occurrences prompt (lit "func (issue *Issue) IsNearlyIdentical(number int) bool") = 1%nat /\
  occurrences prompt (lit "func (issue *Issue) CloseAsDuplicate(number int) bool") = 1%nat.
Proof. vm_compute. repeat split. Qed.

(** ** Two runs on the same input *)

Lemma iteration_two_runs Quote Chat1 Chat2 now1 now2 st rd :
  (forall h, Chat1 h = Chat2 h) ->
  let r1 := iteration Quote Chat1 now1 st rd in
  let r2 := iteration Quote Chat2 now2 st rd in
  snd r1 = snd r2 /\
  same_but_stderr (fst r1) (fst r2) /\
  ((forall code, snd r1 <> OsExit code) \/ now1 = now2 -> fst r1 = fst r2).
Proof.
  intros HC r1 r2. subst r1 r2.
  destruct rd as [data [e|]].
  - rewrite !iteration_read_error. unfold log_Fatal. simpl.
    repeat split. intros [N| ->]; [exfalso; eapply N|]; reflexivity.
  - destruct (list_eq_dec Byte.byte_eq_dec data []) as [->|Hne].
    + rewrite !iteration_eof. repeat split.
    + destruct (list_eq_dec Byte.byte_eq_dec (strings.TrimSpace data) []) as [Hb|Hs].
      * rewrite !iteration_blank by assumption. repeat split.
      * rewrite !iteration_chat by assumption. cbv zeta. rewrite <- HC.
        destruct (Chat1 _) as [next [e|]]; unfold log_Fatal; simpl.
        -- repeat split. intros [N| ->]; [exfalso; eapply N|]; reflexivity.
        -- repeat split.
Qed.

Lemma loop_two_runs Quote Chat1 Chat2 now1 now2 reads :
  (forall h, Chat1 h = Chat2 h) ->
  forall st,
    let r1 := loop Quote Chat1 now1 reads st in
    let r2 := loop Quote Chat2 now2 reads st in
    snd r1 = snd r2 /\
    same_but_stderr (fst r1) (fst r2) /\
    ((forall code, snd r1 <> Exited code) \/ snd r1 = Exited 0 \/ now1 = now2 -> fst r1 = fst r2).
Proof.
  intros HC. induction reads as [|rd rest IH]; intros st r1 r2; subst r1 r2.
  - rewrite !loop_nil. simpl. repeat split.
  - rewrite !loop_cons.
    destruct (iteration_two_runs Quote Chat1 Chat2 now1 now2 st rd HC) as (Hc & Hs & He).
    destruct (iteration Quote Chat1 now1 st rd) as [st1 c1] eqn:E1.
    destruct (iteration Quote Chat2 now2 st rd) as [st2 c2] eqn:E2.
    simpl in Hc, Hs, He. subst c2.
    destruct c1 as [| |code].
    + assert (st1 = st2) by (apply He; left; intros; discriminate). subst st2. apply IH.
    + assert (st1 = st2) by (apply He; left; intros; discriminate). subst st2.
      simpl. repeat split.
    + simpl. repeat split; try apply Hs.
      intros [N|[N| ->]].
      * exfalso. eapply N. reflexivity.
      * inversion N; subst. body_cases E1.
      * apply He. now right.
Qed.

(** Two runs whose backend call fails at different times of day differ
    in the line log.Fatal writes to the diagnostic stream. *)
Lemma C10_counterexample : ~ same_streams_at_any_time.
Proof.
  intros H.
  destruct (H Sample.Quote Sample.ChatDown Sample.now Sample.later [Sample.hello])
    as (_ & _ & K).
  vm_compute in K. discriminate K.
Qed.

(** C10. Two runs on the same reads, with backends that answer alike,
    end in the same way with the same transcript, the same primary
    output and the same backend calls; their diagnostic streams are the
    same too unless the run ends in log.Fatal, whose line starts with
    the time of day, and then they are the same when the two times are. *)
Theorem C10_two_runs_agree :
  forall Quote Chat1 Chat2 now1 now2 reads,
    (forall h, Chat1 h = Chat2 h) ->
    let r1 := loop Quote Chat1 now1 reads initial in
    let r2 := loop Quote Chat2 now2 reads initial in
    snd r1 = snd r2 /\
    history (fst r1) = history (fst r2) /\
    authors (fst r1) = authors (fst r2) /\
    Stdout (fst r1) = Stdout (fst r2) /\
    chats (fst r1) = chats (fst r2) /\
    (snd r1 = Reading \/ snd r1 = Exited 0 \/ now1 = now2 ->
     Stderr (fst r1) = Stderr (fst r2)).
Proof.
  intros Quote Chat1 Chat2 now1 now2 reads HC r1 r2. subst r1 r2.
  destruct (loop_two_runs Quote Chat1 Chat2 now1 now2 reads HC initial)
    as (Hs & (Hh & Ha & Ho & Hc) & He).
  repeat split; auto.
  intros K. f_equal. apply He.
  destruct K as [K|[K|K]]; auto.
  left. intros code. rewrite K. discriminate.
Qed.

Lemma C10_two_runs_agree_witness :
  (forall h, Sample.ChatDown h = Sample.ChatDown h) /\
  history (fst (loop Sample.Quote Sample.ChatDown Sample.now [Sample.hello] initial))
  = history (fst (loop Sample.Quote Sample.ChatDown Sample.later [Sample.hello] initial)).
Proof.
  split; [reflexivity|].
  apply (C10_two_runs_agree Sample.Quote Sample.ChatDown Sample.ChatDown
           Sample.now Sample.later [Sample.hello] (fun h => eq_refl)).
Defined.

(** ** Operator turns *)

Lemma combine_app {A B} (a a' : list A) (b b' : list B) :
  length a = length b -> combine (a ++ a') (b ++ b') = combine a b ++ combine a' b'.
Proof.
  revert b. induction a as [|x a IH]; intros [|y b] H; simpl in H; try discriminate.
  - reflexivity.
  - simpl. f_equal. apply IH. lia.
Qed.

Lemma trimmed_read_later rd reads e : trimmed_read reads e -> trimmed_read (rd :: reads) e.
Proof. intros (d & H & K). exists d. split; [now right | exact K]. Qed.

Lemma entries_operator st st' s :
  length (authors st) = length (history st) ->
  history st' = history st ++ [s] ->
  authors st' = authors st ++ [Operator] ->
  entries st' = entries st ++ [(Operator, s)].
Proof.
  intros L Hh Ha. unfold entries. rewrite Hh, Ha, combine_app by exact L. reflexivity.
Qed.

Lemma entries_reply st st' s next :
  length (authors st) = length (history st) ->
  history st' = history st ++ [s; next] ->
  authors st' = authors st ++ [Operator; Backend] ->
  entries st' = entries st ++ [(Operator, s); (Backend, next)].
Proof.
  intros L Hh Ha. unfold entries. rewrite Hh, Ha, combine_app by exact L. reflexivity.
Qed.

Lemma loop_operator_entries Quote Chat now reads :
  forall st,
    length (authors st) = length (history st) ->
    forall e,
      In (Operator, e) (entries (fst (loop Quote Chat now reads st))) ->
      In (Operator, e) (entries st) \/ trimmed_read reads e.
Proof.
  induction reads as [|rd rest IH]; intros st L e H.
  - left. exact H.
  - rewrite loop_cons in H.
    destruct (iteration Quote Chat now st rd) as [st' c] eqn:E.
    body_cases E; cbn [fst] in H.
    + left. exact H.
    + left. exact H.
    + apply IH in H; [|exact L].
      destruct H as [K|K]; [left; exact K | right; now apply trimmed_read_later].
    + rewrite (entries_operator st _ (strings.TrimSpace data) L) in H by reflexivity.
      apply in_app_or in H. destruct H as [H|[H|[]]]; [left; exact H|].
      inversion H; subst. right. exists data. repeat split; auto. now left.
    + match type of H with
      | In _ (entries (fst (loop _ _ _ _ ?s))) =>
          assert (L' : length (authors s) = length (history s))
            by (simpl; rewrite !length_app, L; reflexivity);
          destruct (IH s L' e H) as [K|K]
      end.
      * rewrite (entries_reply st _ (strings.TrimSpace data) next L) in K
          by (simpl; rewrite <- ?app_assoc; reflexivity).
        apply in_app_or in K. destruct K as [K|[K|[K|[]]]].
        -- left. exact K.
        -- inversion K; subst. right. exists data. repeat split; auto. now left.
        -- discriminate K.
      * right. now apply trimmed_read_later.
Qed.

(** C9. Every entry the operator wrote is the trimmed form of a read
    that was not empty; it is not empty itself, its first and its last
    rune are not white space, and TrimSpace leaves it as it is, so it is
    not a string the loop would reject as blank. *)
Theorem C9_operator_turns_trimmed :
  forall Quote Chat now reads e,
    In (Operator, e) (entries (fst (loop Quote Chat now reads initial))) ->
    e <> [] /\
    (exists data, In (data, None) reads /\ data <> [] /\ e = strings.TrimSpace data) /\
    leading_space e = false /\
    trailing_space e = false /\
    strings.TrimSpace e = e /\
    strings.TrimSpace e <> [].
Proof.
  intros Quote Chat now reads e H.
  destruct (loop_operator_entries Quote Chat now reads initial eq_refl e H) as [K|K].
  - simpl in K. destruct K as [K|[K|[]]]; discriminate K.
  - destruct K as (data & Hin & Hne & Hs & ->).
    destruct (TrimSpace_trimmed data) as [T|[Tl Tt]]; [contradiction|].
    assert (F : strings.TrimSpace (strings.TrimSpace data) = strings.TrimSpace data)
      by (apply TrimSpace_fixed; assumption).
    repeat split; auto.
    + exists data. auto.
    + rewrite F. exact Hs.
Qed.

Lemma C9_operator_turns_trimmed_witness :
  In (Operator, lit "hello")
     (entries (fst (loop Sample.Quote Sample.Chat Sample.now [Sample.hello] initial))) /\
  strings.TrimSpace (lit "hello") = lit "hello".
Proof.
  assert (H : In (Operator, lit "hello")
                 (entries (fst (loop Sample.Quote Sample.Chat Sample.now
                                  [Sample.hello] initial)))).
  { right. right. left. reflexivity. }
  split; [exact H|].
  apply (C9_operator_turns_trimmed Sample.Quote Sample.Chat Sample.now [Sample.hello]
           (lit "hello") H).
Defined.

(** * Further properties of the loop *)

(** ** The loop and its streams *)

Lemma TrimSpace_nil : strings.TrimSpace [] = [].
Proof. reflexivity. Qed.

Lemma TrimSpace_idempotent s : strings.TrimSpace (strings.TrimSpace s) = strings.TrimSpace s.
Proof.
  destruct (TrimSpace_trimmed s) as [E|[Hl Ht]].
  - rewrite E. reflexivity.
  - destruct (strings.TrimSpace s) eqn:T; [reflexivity|].
    rewrite <- T in *. apply TrimSpace_fixed; auto. rewrite T. discriminate.
Qed.

Lemma bytes_eqb_false (s : bytes) : bytes_eqb s [] = false <-> s <> [].
Proof.
  unfold bytes_eqb. destruct (list_eq_dec Byte.byte_eq_dec s []); split; congruence.
Qed.

Lemma nonblank_not_empty data : strings.TrimSpace data <> [] -> data <> [].
Proof. intros H E. subst data. apply H. reflexivity. Qed.

Lemma iteration_pretrim Quote Chat now st rd :
  iteration Quote Chat now st (pretrim rd) = iteration Quote Chat now st rd.
Proof.
  unfold pretrim. destruct rd as [data err]. cbn [fst snd].
  destruct (bytes_eqb (strings.TrimSpace data) []) eqn:B; [reflexivity|].
  apply bytes_eqb_false in B.
  destruct err as [e|]; [reflexivity|].
  assert (B2 : strings.TrimSpace (strings.TrimSpace data) <> [])
    by (rewrite TrimSpace_idempotent; exact B).
  etransitivity; [exact (iteration_chat Quote Chat now st (strings.TrimSpace data) B B2)|].
  symmetry.
  etransitivity; [exact (iteration_chat Quote Chat now st data (nonblank_not_empty _ B) B)|].
  rewrite TrimSpace_idempotent. reflexivity.
Qed.

(** X4. White space around the text of a read changes nothing: a run
    on reads trimmed beforehand is the same run, stream for stream. *)
Theorem X4_surrounding_space_irrelevant :
  forall Quote Chat now reads st,
    loop Quote Chat now (map pretrim reads) st = loop Quote Chat now reads st.
Proof.
  intros Quote Chat now reads. induction reads as [|rd rest IH]; intros st.
  - reflexivity.
  - cbn [map]. rewrite !loop_cons, iteration_pretrim.
    destruct (iteration Quote Chat now st rd) as [st' [| |c]]; auto.
Qed.

Lemma same_but_stderr_refl a : same_but_stderr a a.
Proof. repeat split. Qed.

Lemma same_but_stderr_trans a b c :
  same_but_stderr a b -> same_but_stderr b c -> same_but_stderr a c.
Proof.
  intros (H1 & H2 & H3 & H4) (K1 & K2 & K3 & K4). repeat split; congruence.
Qed.

(** The body looks at the diagnostic stream only to append to it. *)
Lemma iteration_ignores_stderr Quote Chat now a b rd :
  same_but_stderr a b ->
  snd (iteration Quote Chat now a rd) = snd (iteration Quote Chat now b rd) /\
  same_but_stderr (fst (iteration Quote Chat now a rd)) (fst (iteration Quote Chat now b rd)).
Proof.
  intros (Hh & Ha & Ho & Hc).
  destruct rd as [data [e|]].
  - rewrite !iteration_read_error. unfold log_Fatal. simpl. repeat split; assumption.
  - destruct (list_eq_dec Byte.byte_eq_dec data []) as [->|Hne].
    + rewrite !iteration_eof. simpl. repeat split; assumption.
    + destruct (list_eq_dec Byte.byte_eq_dec (strings.TrimSpace data) []) as [Hb|Hs].
      * rewrite !iteration_blank by assumption. simpl. repeat split; assumption.
      * rewrite !iteration_chat by assumption. cbv zeta. simpl history. rewrite Hh.
        destruct (Chat _) as [next [e|]]; unfold log_Fatal; simpl;
          repeat split; simpl; congruence.
Qed.

Lemma loop_ignores_stderr Quote Chat now reads :
  forall a b,
    same_but_stderr a b ->
    snd (loop Quote Chat now reads a) = snd (loop Quote Chat now reads b) /\
    same_but_stderr (fst (loop Quote Chat now reads a)) (fst (loop Quote Chat now reads b)).
Proof.
  induction reads as [|rd rest IH]; intros a b H.
  - rewrite !loop_nil. simpl. destruct H as (? & ? & ? & ?). repeat split; assumption.
  - rewrite !loop_cons.
    destruct (iteration_ignores_stderr Quote Chat now a b rd H) as [Hc Hs].
    destruct (iteration Quote Chat now a rd) as [a' ca].
    destruct (iteration Quote Chat now b rd) as [b' cb].
    simpl in Hc, Hs. subst cb.
    destruct ca; simpl; auto.
Qed.

Lemma blank_read_spec rd :
  blank_read rd = true ->
  exists data, rd = (data, None) /\ data <> [] /\ strings.TrimSpace data = [].
Proof.
  destruct rd as [data [e|]]; simpl; [discriminate|].
  intros H. apply andb_prop in H. destruct H as [H1 H2].
  exists data. split; [reflexivity|]. split.
  - intros ->. discriminate H1.
  - now apply bytes_eqb_nil.
Qed.

(** X5. Blank reads leave no trace but on the diagnostic stream: the
    run without them ends in the same way with the same transcript,
    the same primary output and the same backend calls. *)
Theorem X5_blank_reads_transparent :
  forall Quote Chat now reads st,
    let r1 := loop Quote Chat now reads st in
    let r2 := loop Quote Chat now (without_blanks reads) st in
    snd r1 = snd r2 /\
    history (fst r1) = history (fst r2) /\
    authors (fst r1) = authors (fst r2) /\
    Stdout (fst r1) = Stdout (fst r2) /\
    chats (fst r1) = chats (fst r2).
Proof.
  intros Quote Chat now reads.
  assert (G : forall st,
             snd (loop Quote Chat now reads st)
             = snd (loop Quote Chat now (without_blanks reads) st) /\
             same_but_stderr (fst (loop Quote Chat now reads st))
                             (fst (loop Quote Chat now (without_blanks reads) st))).
  { induction reads as [|rd rest IH]; intros st.
    - split; [reflexivity | apply same_but_stderr_refl].
    - unfold without_blanks. cbn [filter]. fold (without_blanks rest).
      destruct (blank_read rd) eqn:B; cbn [negb].
      + destruct (blank_read_spec rd B) as (data & -> & Hne & Hb).
        rewrite loop_cons. unfold bytes in *.
        rewrite (iteration_blank Quote Chat now st data Hne Hb).
        destruct (loop_ignores_stderr Quote Chat now rest
                    (write_stderr (write_stderr st cue) (Quote data ++ nl)) st) as [H1 H2];
          [repeat split|].
        destruct (IH st) as [K1 K2]. split; [congruence|].
        eapply same_but_stderr_trans; eassumption.
      + rewrite !loop_cons.
        destruct (iteration Quote Chat now st rd) as [st' [| |c]]; simpl.
        * apply IH.
        * split; [reflexivity | apply same_but_stderr_refl].
        * split; [reflexivity | apply same_but_stderr_refl]. }
  intros st r1 r2. destruct (G st) as [H (H1 & H2 & H3 & H4)]. auto.
Qed.

Lemma iteration_stderr_free Quote Chat1 Chat2 now a b rd :
  (forall h, snd (Chat1 h) = None) ->
  (forall h, snd (Chat2 h) = None) ->
  Stderr a = Stderr b ->
  snd (iteration Quote Chat1 now a rd) = snd (iteration Quote Chat2 now b rd) /\
  Stderr (fst (iteration Quote Chat1 now a rd)) = Stderr (fst (iteration Quote Chat2 now b rd)).
Proof.
  intros H1 H2 E.
  destruct rd as [data [e|]].
  - rewrite !iteration_read_error. unfold log_Fatal. simpl. rewrite E. auto.
  - destruct (list_eq_dec Byte.byte_eq_dec data []) as [->|Hne].
    + rewrite !iteration_eof. simpl. rewrite E. auto.
    + destruct (list_eq_dec Byte.byte_eq_dec (strings.TrimSpace data) []) as [Hb|Hs].
      * rewrite !iteration_blank by assumption. simpl. rewrite E. auto.
      * rewrite !iteration_chat by assumption. cbv zeta.
        match goal with
        | |- context [Chat1 ?h] => specialize (H1 h); destruct (Chat1 h) as [n1 [e1|]]
        end; [discriminate H1|].
        match goal with
        | |- context [Chat2 ?h] => specialize (H2 h); destruct (Chat2 h) as [n2 [e2|]]
        end; [discriminate H2|].
        simpl. rewrite E. auto.
Qed.

(** X8. What the backend replies never reaches the diagnostic stream
    and never changes how the loop ends: with two backends whose calls
    all succeed, the runs on the same reads write the same bytes to the
    diagnostic stream and end in the same way. *)
Theorem X8_replies_do_not_reach_stderr :
  forall Quote Chat1 Chat2 now reads,
    (forall h, snd (Chat1 h) = None) ->
    (forall h, snd (Chat2 h) = None) ->
    Stderr (fst (loop Quote Chat1 now reads initial))
    = Stderr (fst (loop Quote Chat2 now reads initial)) /\
    snd (loop Quote Chat1 now reads initial) = snd (loop Quote Chat2 now reads initial).
Proof.
  intros Quote Chat1 Chat2 now reads H1 H2.
  assert (G : forall a b, Stderr a = Stderr b ->
             Stderr (fst (loop Quote Chat1 now reads a))
             = Stderr (fst (loop Quote Chat2 now reads b)) /\
             snd (loop Quote Chat1 now reads a) = snd (loop Quote Chat2 now reads b)).
  { induction reads as [|rd rest IH]; intros a b E.
    - rewrite !loop_nil. simpl. rewrite E. auto.
    - rewrite !loop_cons.
      destruct (iteration_stderr_free Quote Chat1 Chat2 now a b rd H1 H2 E) as [Hc Hs].
      destruct (iteration Quote Chat1 now a rd) as [a' ca].
      destruct (iteration Quote Chat2 now b rd) as [b' cb].
      simpl in Hc, Hs. subst cb. destruct ca; simpl; auto. }
  apply G. reflexivity.
Qed.

Lemma X8_replies_do_not_reach_stderr_witness :
  (forall h, snd (Sample.Chat h) = None) /\
  (forall h, snd (echo_backend h) = None) /\
  Stderr (fst (loop Sample.Quote Sample.Chat Sample.now
                 [Sample.hello; Sample.blank] initial))
  = Stderr (fst (loop Sample.Quote echo_backend Sample.now
                   [Sample.hello; Sample.blank] initial)).
Proof.
  split; [reflexivity|]. split; [reflexivity|].
  apply (X8_replies_do_not_reach_stderr Sample.Quote Sample.Chat echo_backend Sample.now
           [Sample.hello; Sample.blank] (fun h => eq_refl) (fun h => eq_refl)).
Defined.

Lemma blank_read_false data :
  data <> [] -> strings.TrimSpace data <> [] -> blank_read (data, None) = false.
Proof.
  intros _ H. unfold blank_read. apply bytes_eqb_false in H. rewrite H. apply andb_false_r.
Qed.

Lemma blank_read_true data :
  data <> [] -> strings.TrimSpace data = [] -> blank_read (data, None) = true.
Proof.
  intros Hne H. unfold blank_read. rewrite H.
  destruct data as [|b d]; [contradiction | reflexivity].
Qed.

(** X10. A run that is still waiting for input has lost no read: every
    read came without error and was not empty, and each read that is
    not blank added exactly one backend call and two transcript
    entries. *)
Theorem X10_waiting_run_counts :
  forall Quote Chat now reads st,
    snd (loop Quote Chat now reads st) = Reading ->
    Forall (fun rd => snd rd = None /\ fst rd <> []) reads /\
    length (chats (fst (loop Quote Chat now reads st)))
    = (length (chats st) + length (without_blanks reads))%nat /\
    length (history (fst (loop Quote Chat now reads st)))
    = (length (history st) + 2 * length (without_blanks reads))%nat.
Proof.
  intros Quote Chat now reads. induction reads as [|rd rest IH]; intros st H.
  - rewrite loop_nil. simpl. repeat split; [constructor | lia | lia].
  - rewrite loop_cons in *.
    destruct (iteration Quote Chat now st rd) as [st1 c] eqn:E.
    body_cases E; try discriminate H.
    + destruct (IH _ H) as (F & C & L).
      unfold without_blanks in *. cbn [filter].
      rewrite blank_read_true by assumption. cbn [negb].
      repeat split; [constructor; [split; [reflexivity | assumption] | exact F] | exact C | exact L].
    + destruct (IH _ H) as (F & C & L).
      unfold without_blanks in *. cbn [filter].
      rewrite blank_read_false by assumption. cbn [negb length].
      repeat split.
      * constructor; [split; [reflexivity | assumption] | exact F].
      * rewrite C. simpl. rewrite length_app. simpl. lia.
      * rewrite L. simpl. rewrite !length_app. simpl. lia.
Qed.

Lemma X10_waiting_run_counts_witness :
  snd (loop Sample.Quote Sample.Chat Sample.now
         [Sample.hello; Sample.blank; Sample.hello] initial) = Reading /\
  length (chats (fst (loop Sample.Quote Sample.Chat Sample.now
                        [Sample.hello; Sample.blank; Sample.hello] initial)))
  = (length (chats initial)
     + length (without_blanks [Sample.hello; Sample.blank; Sample.hello]))%nat.
Proof.
  assert (H : snd (loop Sample.Quote Sample.Chat Sample.now
                     [Sample.hello; Sample.blank; Sample.hello] initial) = Reading)
    by reflexivity.
  split; [exact H|].
  apply (X10_waiting_run_counts Sample.Quote Sample.Chat Sample.now
           [Sample.hello; Sample.blank; Sample.hello] initial H).
Defined.

(** ** What the backend is sent *)

Lemma calls_replayed_call st st' s ext :
  length (history st) = (2 * length (chats st) + 2)%nat ->
  history st' = history st ++ s :: ext ->
  chats st' = chats st ++ [history st ++ [s]] ->
  calls_replayed st -> calls_replayed st'.
Proof.
  intros L Hh Hc H i c Hi. rewrite Hh. rewrite Hc in Hi.
  destruct (Nat.lt_ge_cases i (length (chats st))) as [Lt|Ge].
  - rewrite nth_error_app1 in Hi by assumption.
    rewrite (H i c Hi), firstn_app.
    replace (2 * i + 3 - length (history st))%nat with 0%nat by lia.
    cbn [firstn]. now rewrite app_nil_r.
  - rewrite nth_error_app2 in Hi by assumption.
    destruct (i - length (chats st))%nat as [|k] eqn:D.
    + inversion Hi; subst c. rewrite firstn_app, firstn_all2 by lia.
      replace (2 * i + 3 - length (history st))%nat with 1%nat by lia. reflexivity.
    + destruct k; discriminate Hi.
Qed.

Lemma loop_calls_replayed Quote Chat now reads :
  forall st,
    length (history st) = (2 * length (chats st) + 2)%nat /\ calls_replayed st ->
    (length (history (fst (loop Quote Chat now reads st)))
     = (2 * length (chats (fst (loop Quote Chat now reads st))) + 2)%nat \/
     length (history (fst (loop Quote Chat now reads st)))
     = (2 * length (chats (fst (loop Quote Chat now reads st))) + 1)%nat) /\
    calls_replayed (fst (loop Quote Chat now reads st)).
Proof.
  apply (loop_invariant Quote Chat now
           (fun st => length (history st) = (2 * length (chats st) + 2)%nat /\ calls_replayed st)
           (fun st => (length (history st) = (2 * length (chats st) + 2)%nat \/
                       length (history st) = (2 * length (chats st) + 1)%nat) /\
                      calls_replayed st)).
  - intros st [L H]. split; [left; exact L | exact H].
  - intros st rd st' [L H] E. body_cases E.
    + split; [exact L | exact H].
    + split.
      * simpl. rewrite !length_app. simpl. lia.
      * revert H. apply (calls_replayed_call st _ (strings.TrimSpace data) [next] L);
          simpl; rewrite <- ?app_assoc; reflexivity.
  - intros st rd st' c [L H] E _. body_cases E.
    + split; [left; exact L | exact H].
    + split; [left; exact L | exact H].
    + split; [left; exact L | exact H].
    + split.
      * right. simpl. rewrite !length_app. simpl. lia.
      * revert H. apply (calls_replayed_call st _ (strings.TrimSpace data) [] L);
          reflexivity.
    + split.
      * left. simpl. rewrite !length_app. simpl. lia.
      * revert H. apply (calls_replayed_call st _ (strings.TrimSpace data) [next] L);
          simpl; rewrite <- ?app_assoc; reflexivity.
Qed.

(** The transcript is one entry short of two per call only when the
    run has exited on a failed call, the last one, made on the whole
    transcript. *)
Lemma loop_short_transcript Quote Chat now reads :
  forall st,
    length (history st) = (2 * length (chats st) + 2)%nat ->
    length (history (fst (loop Quote Chat now reads st)))
    = (2 * length (chats (fst (loop Quote Chat now reads st))) + 1)%nat ->
    snd (loop Quote Chat now reads st) = Exited 1 /\
    exists calls e,
      chats (fst (loop Quote Chat now reads st))
      = calls ++ [history (fst (loop Quote Chat now reads st))] /\
      snd (Chat (history (fst (loop Quote Chat now reads st)))) = Some e.
Proof.
  induction reads as [|rd rest IH]; intros st L H.
  - rewrite loop_nil in H. simpl in H. lia.
  - rewrite loop_cons in *.
    destruct (iteration Quote Chat now st rd) as [st1 c] eqn:E.
    body_cases E; cbn [fst snd] in *.
    + simpl in H. lia.
    + simpl in H. lia.
    + apply IH; [exact L | exact H].
    + split; [reflexivity|].
      exists (chats st), e. simpl.
      match goal with K : Chat _ = _ |- _ => rewrite K end. split; reflexivity.
    + apply IH; [|exact H]. simpl. rewrite !length_app. simpl. lia.
Qed.

(** X1. Every backend call is given the whole transcript of its time:
    call number [i] (from 0) receives the first [2 i + 3] entries of the
    final transcript, which begin with the priming pair, and the
    transcript holds two entries for each call besides the priming pair,
    or one less when the last call failed. *)
Theorem X1_calls_send_whole_transcript :
  forall Quote Chat now reads i c,
    let st := fst (loop Quote Chat now reads initial) in
    nth_error (chats st) i = Some c ->
    c = firstn (2 * i + 3) (history st) /\
    length c = (2 * i + 3)%nat /\
    firstn 2 c = [prompt; acknowledgment] /\
    (length (history st) = (2 * length (chats st) + 2)%nat \/
     length (history st) = (2 * length (chats st) + 1)%nat) /\
    (length (history st) = (2 * length (chats st) + 1)%nat ->
     snd (loop Quote Chat now reads initial) = Exited 1 /\
     exists calls e, chats st = calls ++ [history st] /\ snd (Chat (history st)) = Some e).
Proof.
  intros Quote Chat now reads i c st Hi.
  destruct (loop_calls_replayed Quote Chat now reads initial) as [L H].
  { split; [reflexivity|]. intros [|k] c' Hk; discriminate Hk. }
  fold st in L, H.
  assert (Li : (i < length (chats st))%nat) by (apply nth_error_Some; congruence).
  pose proof (H i c Hi) as Ec.
  destruct (loop_history_grows Quote Chat now reads initial) as [ext Hx]. fold st in Hx.
  split; [|split; [|split; [|split]]].
  - exact Ec.
  - rewrite Ec, length_firstn. lia.
  - rewrite Ec, firstn_firstn. replace (Nat.min 2 (2 * i + 3)) with 2%nat by lia.
    rewrite Hx. reflexivity.
  - exact L.
  - intros S. subst st. apply loop_short_transcript; [reflexivity | exact S].
Qed.

Lemma X1_calls_send_whole_transcript_witness :
  nth_error (chats (fst (loop Sample.Quote Sample.Chat Sample.now
                           [Sample.hello; Sample.hello] initial))) 1
  = Some [prompt; acknowledgment; lit "hello"; Sample.reply; lit "hello"] /\
  length [prompt; acknowledgment; lit "hello"; Sample.reply; lit "hello"] = (2 * 1 + 3)%nat.
Proof.
  assert (H : nth_error (chats (fst (loop Sample.Quote Sample.Chat Sample.now
                                       [Sample.hello; Sample.hello] initial))) 1
              = Some [prompt; acknowledgment; lit "hello"; Sample.reply; lit "hello"])
    by reflexivity.
  split; [exact H|].
  apply (X1_calls_send_whole_transcript Sample.Quote Sample.Chat Sample.now
           [Sample.hello; Sample.hello] 1 _ H).
Defined.

(** X2. A pass calls the backend exactly when the read came without
    error and does not trim to nothing, once, on the transcript with
    the trimmed read at its end; no other pass calls it. *)
Theorem X2_backend_called_iff :
  forall Quote Chat now st rd,
    let st' := fst (iteration Quote Chat now st rd) in
    (snd rd = None /\ strings.TrimSpace (fst rd) <> [] /\
     chats st' = chats st ++ [history st ++ [strings.TrimSpace (fst rd)]]) \/
    ((snd rd <> None \/ strings.TrimSpace (fst rd) = []) /\ chats st' = chats st).
Proof.
  intros Quote Chat now st rd st'. subst st'.
  destruct (iteration Quote Chat now st rd) as [st1 c] eqn:E.
  body_cases E; simpl.
  - right. split; [left; discriminate | reflexivity].
  - right. split; [right; reflexivity | reflexivity].
  - right. split; [right; assumption | reflexivity].
  - left. repeat split; assumption.
  - left. repeat split; assumption.
Qed.

(** ** What is printed *)

Lemma backend_turns_operator st st' s :
  length (authors st) = length (history st) ->
  history st' = history st ++ [s] ->
  authors st' = authors st ++ [Operator] ->
  backend_turns st' = backend_turns st.
Proof.
  intros L Hh Ha. unfold backend_turns.
  rewrite (entries_operator st st' s L Hh Ha), filter_app. simpl. now rewrite app_nil_r.
Qed.

Lemma backend_turns_reply st st' s next :
  length (authors st) = length (history st) ->
  history st' = history st ++ [s; next] ->
  authors st' = authors st ++ [Operator; Backend] ->
  backend_turns st' = backend_turns st ++ [next].
Proof.
  intros L Hh Ha. unfold backend_turns.
  rewrite (entries_reply st st' s next L Hh Ha), filter_app, map_app. reflexivity.
Qed.

(** X3. The primary output is the transcript's backend turns, framed
    one after the other: nothing else is ever printed there, and every
    reply in the transcript was printed. *)
Theorem X3_stdout_from_transcript :
  forall Quote Chat now reads,
    let st := fst (loop Quote Chat now reads initial) in
    Stdout st = concat (map frame (backend_turns st)).
Proof.
  intros Quote Chat now reads st. subst st.
  assert (G : length (authors (fst (loop Quote Chat now reads initial)))
              = length (history (fst (loop Quote Chat now reads initial))) /\
              Stdout (fst (loop Quote Chat now reads initial))
              = concat (map frame (backend_turns (fst (loop Quote Chat now reads initial))))).
  { apply (loop_invariant Quote Chat now
             (fun st => length (authors st) = length (history st) /\
                        Stdout st = concat (map frame (backend_turns st)))
             (fun st => length (authors st) = length (history st) /\
                        Stdout st = concat (map frame (backend_turns st)))).
    - intros st H. exact H.
    - intros st rd st' [L H] E. body_cases E.
      + split; [exact L | exact H].
      + split.
        * simpl. rewrite !length_app, L. reflexivity.
        * rewrite (backend_turns_reply st _ (strings.TrimSpace data) next L)
            by (simpl; rewrite <- ?app_assoc; reflexivity).
          rewrite map_app, concat_app. simpl. rewrite H, app_nil_r. reflexivity.
    - intros st rd st' c [L H] E _. body_cases E.
      + split; [exact L | exact H].
      + split; [exact L | exact H].
      + split; [exact L | exact H].
      + split.
        * simpl. rewrite !length_app, L. reflexivity.
        * rewrite (backend_turns_operator st _ (strings.TrimSpace data) L)
            by reflexivity.
          exact H.
      + split.
        * simpl. rewrite !length_app, L. reflexivity.
        * rewrite (backend_turns_reply st _ (strings.TrimSpace data) next L)
            by (simpl; rewrite <- ?app_assoc; reflexivity).
          rewrite map_app, concat_app. simpl. rewrite H, app_nil_r. reflexivity.
    - split; reflexivity. }
  apply G.
Qed.

Lemma trimRightByte_rev_repeat c k : strings.trimRightByte_rev (repeat c k) c = [].
Proof.
  induction k as [|k IH]; simpl; [reflexivity|].
  assert (E : Byte.eqb c c = true) by (apply Byte.byte_dec_lb; reflexivity).
  rewrite E. exact IH.
Qed.

Lemma TrimRight_repeat c k : strings.TrimRight (repeat c k) c = [].
Proof.
  rewrite TrimRight_trimRightByte. unfold strings.trimRightByte.
  rewrite repeat_rev, trimRightByte_rev_repeat. reflexivity.
Qed.

(** X6. A reply made of line breaks only, the empty reply among them,
    is shown as an empty frame and still stored as it came. *)
Theorem X6_line_break_reply :
  forall Quote Chat now st data k,
    strings.TrimSpace data <> [] ->
    Chat (history st ++ [strings.TrimSpace data]) = (repeat x0a k, None) ->
    let st' := fst (iteration Quote Chat now st (data, None)) in
    Stdout st' = Stdout st ++ nl ++ lit "<model> " ++ nl ++ nl /\
    history st' = history st ++ [strings.TrimSpace data; repeat x0a k] /\
    snd (iteration Quote Chat now st (data, None)) = Continue.
Proof.
  intros Quote Chat now st data k Hs HC st'. subst st'. unfold bytes in *.
  rewrite (iteration_reply Quote Chat now st data _ (nonblank_not_empty _ Hs) Hs HC).
  simpl. rewrite TrimRight_repeat. repeat split.
Qed.

Lemma X6_line_break_reply_witness :
  strings.TrimSpace (lit "hello") <> [] /\
  silent_backend (history initial ++ [strings.TrimSpace (lit "hello")]) = (repeat x0a 3, None) /\
  Stdout (fst (iteration Sample.Quote silent_backend Sample.now initial (lit "hello", None)))
  = Stdout initial ++ nl ++ lit "<model> " ++ nl ++ nl.
Proof.
  assert (Hs : strings.TrimSpace (lit "hello") <> []) by discriminate.
  split; [exact Hs|]. split; [reflexivity|].
  apply (X6_line_break_reply Sample.Quote silent_backend Sample.now initial (lit "hello") 3
           Hs eq_refl).
Defined.

(** Close a goal [exists x, l ++ ... = l ++ x]. *)
Ltac extends :=
  first [ exists []; rewrite ?app_nil_r; reflexivity
        | eexists; rewrite <- ?app_assoc; reflexivity
        | eexists; rewrite <- ?app_assoc; simpl; reflexivity ].

(** X7. The loop only ever appends: whatever the reads, the final
    transcript, primary output, diagnostic stream and list of backend
    calls extend the ones it started from, and the diagnostic stream
    gains at least the cue. *)
Theorem X7_streams_append_only :
  forall Quote Chat now reads st,
    let st' := fst (loop Quote Chat now reads st) in
    (exists h, history st' = history st ++ h) /\
    (exists o, Stdout st' = Stdout st ++ o) /\
    (exists e, Stderr st' = Stderr st ++ cue ++ e) /\
    (exists c, chats st' = chats st ++ c).
Proof.
  intros Quote Chat now reads. induction reads as [|rd rest IH]; intros st st'; subst st'.
  - rewrite loop_nil. simpl. repeat split; extends.
  - rewrite loop_cons.
    destruct (iteration Quote Chat now st rd) as [st1 c] eqn:E.
    body_cases E; cbn [fst];
      try match goal with
          | |- context [loop _ _ _ rest ?s] =>
              destruct (IH s) as ((h & Hh) & (o & Ho) & (e' & He) & (c & Hc));
              rewrite Hh, Ho, He, Hc
          end;
      simpl; repeat split; extends.
Qed.

(** ** Reads of ASCII white space *)

Lemma asciiSpace_below c : strings.asciiSpace c = true -> c < utf8.RuneSelf.
Proof.
  unfold strings.asciiSpace, utf8.RuneSelf. intros H.
  repeat (apply orb_prop in H; destruct H as [H|H]); apply Z.eqb_eq in H; lia.
Qed.

Lemma TrimSpace_start_spaces s :
  Forall (fun b => strings.asciiSpace (b2z b) = true) s ->
  forall k start, (start + k = length s)%nat -> strings.TrimSpace_start s k start = [].
Proof.
  intros F. induction k as [|k IH]; intros start H; cbn [strings.TrimSpace_start].
  - apply TrimSpace_stop_empty. lia.
  - assert (A : strings.asciiSpace (at_ s start) = true).
    { rewrite Forall_forall in F. apply F. apply nth_In. lia. }
    pose proof (asciiSpace_below _ A) as B.
    destruct (Z.leb_spec utf8.RuneSelf (at_ s start)); [lia|].
    rewrite A. cbn [negb]. apply IH. lia.
Qed.

(** X11. A read made of ASCII white space only (tab, line feed,
    vertical tab, form feed, carriage return, space) is rejected as
    blank: the pass continues without a backend call and leaves the
    transcript as it was. *)
Theorem X11_ascii_space_read_is_blank :
  forall Quote Chat now st data,
    data <> [] ->
    Forall (fun b => strings.asciiSpace (b2z b) = true) data ->
    strings.TrimSpace data = [] /\
    snd (iteration Quote Chat now st (data, None)) = Continue /\
    history (fst (iteration Quote Chat now st (data, None))) = history st /\
    chats (fst (iteration Quote Chat now st (data, None))) = chats st /\
    Stderr (fst (iteration Quote Chat now st (data, None)))
    = Stderr st ++ cue ++ Quote data ++ nl.
Proof.
  intros Quote Chat now st data Hne F.
  assert (T : strings.TrimSpace data = [])
    by (apply TrimSpace_start_spaces; [exact F | reflexivity]).
  unfold bytes in *.
  rewrite (iteration_blank Quote Chat now st data Hne T). simpl.
  repeat split; auto. now rewrite <- app_assoc.
Qed.

Lemma X11_ascii_space_read_is_blank_witness :
  lit " " ++ tab ++ nl <> [] /\
  Forall (fun b => strings.asciiSpace (b2z b) = true) (lit " " ++ tab ++ nl) /\
  strings.TrimSpace (lit " " ++ tab ++ nl) = [].
Proof.
  assert (Hne : lit " " ++ tab ++ nl <> []) by discriminate.
  assert (F : Forall (fun b => strings.asciiSpace (b2z b) = true) (lit " " ++ tab ++ nl))
    by (repeat constructor).
  split; [exact Hne|]. split; [exact F|].
  apply (X11_ascii_space_read_is_blank Sample.Quote Sample.Chat Sample.now initial
           (lit " " ++ tab ++ nl) Hne F).
Defined.
